(** * Span extraction and output assembly of [TextNormalizationModel]

    A shallow embedding of the two tag walks of
    [nemo/collections/nlp/models/text_normalization/text_normalization_model.py]:
    the loop of [inference] that registers the left and right context
    columns of every semiotic span, and [assemble_output], which walks the
    same tag predictions again and splices decoder outputs and verbatim
    token runs into the per-example predictions. *)

From stdpp Require Import base option list strings gmap fin_maps.
From Stdlib Require Import ZArith Lia.

Local Open Scope Z_scope.

(** ** Exceptions *)

(** The Python exceptions the modelled code can raise. *)
Inductive error : Type :=
  | IndexError          (* a list subscript out of range *)
  | TypeError           (* [None] subscripted *)
  | UnboundLocalError   (* a local variable read before assignment *)
  | AssertionError.

Inductive res (A : Type) : Type :=
  | Ok (a : A)
  | Err (e : error).
Arguments Ok {A} a.
Arguments Err {A} e.

#[global] Instance res_ret : MRet res := @Ok.
#[global] Instance res_bind : MBind res := λ A B f m,
  match m with Ok a => f a | Err e => Err e end.
#[global] Instance res_fmap : FMap res := λ A B f m,
  match m with Ok a => Ok (f a) | Err e => Err e end.

#[global] Instance error_eq_dec : EqDecision error.
Proof. solve_decision. Defined.

#[global] Instance res_eq_dec {A} `{EqDecision A} : EqDecision (res A).
Proof. solve_decision. Defined.

Definition is_Ok {A} (m : res A) : bool :=
  match m with Ok _ => true | Err _ => false end.

(** ** Data *)

(** The part of a tokenizer object the walks use. *)
Record Tokenizer : Type := {
  bos_id : Z;
  eos_id : Z;
  pad_id : Z;
  ids_to_text : list Z → string;
  text_to_ids : string → list Z;
}.

(** [tag_labels] is imported from [text_normalization_dataset], which is not
    part of the sources at hand: its four entries are kept as a parameter. *)
Record TagLabels : Type := {
  O_I : Z;   (* tag_labels['O-I'] *)
  O_M : Z;   (* tag_labels['O-M'] *)
  B_I : Z;   (* tag_labels['B-I'] *)
  B_M : Z;   (* tag_labels['B-M'] *)
}.

(** The values [prev_tag] takes besides [None]: the strings ['O'] and ['B']. *)
Inductive ptag : Type := O | B.

#[global] Instance ptag_eq_dec : EqDecision ptag.
Proof. solve_decision. Defined.

(** One row of a batch.  The tensors [context_ids] and [tag_preds] have the
    same shape (bs, max_context_length) and [len_context], [example_ids] have
    bs entries, so row [i] of a batch gathers [example_ids[i]],
    [context_ids[i]], [tag_preds[i]] and [len_context[i]]. *)
Record example : Type := {
  example_id : Z;
  context_ids : list Z;
  tag_preds : list Z;
  len_context : Z;
}.

(** [l[a:b]] for indices [0 <= a], [0 <= b]. *)
Definition slice {A} (l : list A) (a b : nat) : list A :=
  take (b - a)%nat (drop a l).

(** One entry of the three lists [row_index], [left_column_index] and
    [right_column_index], which [register_lr] always extends together. *)
Record lr : Type := {
  row_index : nat;
  left_column_index : Z;
  right_column_index : Z;
}.

#[global] Instance lr_eq_dec : EqDecision lr.
Proof. solve_decision. Defined.

#[global] Instance example_eq_dec : EqDecision example.
Proof. solve_decision. Defined.

(** What a call of the local function [decode] with a set [prev_tag]
    stands for: the run [span_start, span_end) of row [span_row], which is
    the example [span_of]. *)
Record span : Type := {
  span_of : example;
  span_row : nat;
  span_cat : ptag;
  span_start : nat;
  span_end : nat;
}.

#[global] Instance span_eq_dec : EqDecision span.
Proof. solve_decision. Defined.

Definition span_example (x : span) : Z := example_id (span_of x).

(** ** Sample data *)

Module Sample.

Definition labels : TagLabels :=
  {| O_I := 0; O_M := 1; B_I := 2; B_M := 3 |}.

Definition word (z : Z) : string :=
  if z =? 1 then "the"%string
  else if z =? 2 then "5"%string
  else if z =? 3 then "dogs"%string
  else if z =? 4 then "five"%string
  else "#"%string.

Fixpoint join_words (l : list Z) : string :=
  match l with
  | [] => EmptyString
  | [z] => word z
  | z :: l' => (word z +:+ " " +:+ join_words l')%string
  end.

Definition tokenizer : Tokenizer :=
  {| bos_id := 101; eos_id := 102; pad_id := 0; ids_to_text := join_words;
     text_to_ids := λ s, [Z.of_nat (String.length s)] |}.

(** A sequence model that answers every encoder input with "five". *)
Definition seq2seq (batch : list example) (requests : list lr)
    (src trg : list (list Z)) (src_lengths : list nat) (max_len : Z)
    : list (list Z) :=
  (λ _, [4]) <$> src.

(** [BOS the 5 5 dogs EOS] *)
Definition boundary : example :=
  {| example_id := 7; context_ids := [101; 1; 2; 2; 3; 102];
     tag_preds := [0; 0; 2; 3; 0; 0]; len_context := 6 |}.

(** [BOS 5 EOS], the one token labelled B-I. *)
Definition five (id : Z) : example :=
  {| example_id := id; context_ids := [101; 2; 102];
     tag_preds := [0; 2; 0]; len_context := 3 |}.

(** [BOS dogs EOS pad], the one token labelled O-I. *)
Definition dogs (id : Z) : example :=
  {| example_id := id; context_ids := [101; 3; 102; 0];
     tag_preds := [0; 0; 0; 0]; len_context := 3 |}.

(** [BOS EOS pad] *)
Definition blank (id : Z) : example :=
  {| example_id := id; context_ids := [101; 102; 0];
     tag_preds := [0; 0; 0]; len_context := 2 |}.

(** [BOS 5 5 EOS], both tokens labelled B-I. *)
Definition two_starts : example :=
  {| example_id := 7; context_ids := [101; 2; 2; 102];
     tag_preds := [0; 2; 2; 0]; len_context := 4 |}.

(** [BOS the dogs EOS], both tokens labelled O-I. *)
Definition two_plain : example :=
  {| example_id := 7; context_ids := [101; 1; 3; 102];
     tag_preds := [0; 0; 0; 0]; len_context := 4 |}.

(** [BOS 5 5 5] of valid length 4: no end marker. *)
Definition unterminated : example :=
  {| example_id := 7; context_ids := [101; 2; 2; 2];
     tag_preds := [0; 2; 3; 3]; len_context := 4 |}.

(** [BOS 5 5 pad] of valid length 3: no end marker, then padding. *)
Definition padded : example :=
  {| example_id := 7; context_ids := [101; 2; 2; 0];
     tag_preds := [0; 2; 3; 0]; len_context := 3 |}.

(** [BOS pad pad] of valid length 1. *)
Definition only_start : example :=
  {| example_id := 7; context_ids := [101; 0; 0];
     tag_preds := [0; 0; 1]; len_context := 1 |}.

End Sample.

Section TextNormalizationModel.

Variable tokenizer_context : Tokenizer.
Variable tokenizer_encoder : Tokenizer.
Variable tokenizer_decoder : Tokenizer.
Variable tag_labels : TagLabels.

(** ** [inference]: the loop that registers the spans *)

(** [register_lr]: [if prev_tag:] appends to the three lists. *)
Definition register_lr (prev_tag : option ptag) (i start_index j : nat)
    (acc : list lr) : list lr :=
  match prev_tag with
  | Some _ =>
      acc ++ [ {| row_index := i;
                  left_column_index := Z.of_nat start_index - 1;
                  right_column_index := Z.of_nat j |} ]
  | None => acc
  end.

(** The inner loop [for j, tag in enumerate(tag_preds[i])], from index [j]
    on, over the tags not yet visited. *)
Fixpoint inference_tokens (i : nat) (len_i : Z) (tags : list Z) (j : nat)
    (prev_tag : option ptag) (start_index : nat) (acc : list lr) : list lr :=
  match tags with
  | [] => acc
  | tag :: tags' =>
      if (j =? 0)%nat then
        inference_tokens i len_i tags' (S j) prev_tag start_index acc
      else if Z.of_nat j >=? len_i - 1 then
        register_lr prev_tag i start_index j acc
      else if tag =? B_I tag_labels then
        inference_tokens i len_i tags' (S j) (Some B) j
          (register_lr prev_tag i start_index j acc)
      else if tag =? B_M tag_labels then
        match prev_tag with
        | Some B =>
            inference_tokens i len_i tags' (S j) prev_tag start_index acc
        | _ =>
            inference_tokens i len_i tags' (S j) (Some B) j
              (register_lr prev_tag i start_index j acc)
        end
      else
        inference_tokens i len_i tags' (S j) None start_index
          (register_lr prev_tag i start_index j acc)
  end.

(** The outer loop [for i in range(len(tag_preds))], from row [i] on. *)
Fixpoint inference_rows (rows : list example) (i : nat) (acc : list lr)
    : list lr :=
  match rows with
  | [] => acc
  | r :: rows' =>
      inference_rows rows' (S i)
        (inference_tokens i (len_context r) (tag_preds r) 0 None 0 acc)
  end.

Definition inference_spans (batch : list example) : list lr :=
  inference_rows batch 0 [].

(** The [assert] statement of [inference].  Its operand is the
    parenthesised pair (condition, message): Python tests the truth value
    of that tuple, and a tuple of two elements is true. *)
Definition torch_all_lt (requests : list lr) : bool :=
  forallb (λ q, left_column_index q <? right_column_index q) requests.

Definition tuple_truth {X Y} (t : X * Y) : bool := true.

Definition py_assert (test : bool) : res unit :=
  if test then Ok tt else Err AssertionError.

Definition inference_assert (requests : list lr) : res unit :=
  py_assert
    (tuple_truth
       (torch_all_lt requests,
        "left context start needs to be smaller than right context end"%string)).

(** [input_ids]: one encoder input per registered span. *)
Fixpoint inference_input_ids (batch : list example) (requests : list lr)
    : res (list (list Z)) :=
  match requests with
  | [] => Ok []
  | q :: requests' =>
      match batch !! row_index q with
      | None => Err IndexError
      | Some r =>
          let input_str :=
            ids_to_text tokenizer_context
              (slice (context_ids r)
                 (Z.to_nat (left_column_index q + 1))
                 (Z.to_nat (right_column_index q))) in
          rest ← inference_input_ids batch requests';
          Ok ((bos_id tokenizer_encoder
                 :: text_to_ids tokenizer_encoder input_str) :: rest)
      end
  end.

(** [np.pad(x, pad_width=[0, pad_width], constant_values=c)]. *)
Definition np_pad (x : list Z) (pad_width : nat) (c : Z) : list Z :=
  x ++ replicate pad_width c.

(** The encoder inputs padded on the right with the encoder's [pad_id] to
    the length of the longest one. *)
Definition inference_pad (input_ids : list (list Z)) : list (list Z) :=
  let len_input := length <$> input_ids in
  let max_input_length := max_list len_input in
  (λ x, np_pad x (max_input_length - length x) (pad_id tokenizer_encoder))
    <$> input_ids.

(** The sequence model followed by the [argmax] over its logits, an opaque
    numeric component.  After the batch and the registered entries, which
    stand for [decoder_init_hidden] (the context encodings of the batch
    gathered at the registered columns), its arguments are those of the
    call: [src], [trg], [src_lengths] and [max_len]. *)
Variable seq2seq :
  list example → list lr → list (list Z) → list (list Z) → list nat → Z →
  list (list Z).

(** What [inference] returns, with the number of calls of the sequence
    model it made. *)
Record inference_result : Type := {
  input_ids : option (list (list Z));
  seq_preds : option (list (list Z));
  requests : list lr;
  seq2seq_calls : nat;
}.

Definition inference (max_output_length : Z) (batch : list example)
    : res inference_result :=
  let requests := inference_spans batch in
  _ ← inference_assert requests;
  input_ids ← inference_input_ids batch requests;
  let len_input := length <$> input_ids in
  match input_ids with
  | [] =>
      Ok {| input_ids := None; seq_preds := None;
            requests := requests; seq2seq_calls := 0 |}
  | _ =>
      let input_ids := inference_pad input_ids in
      let decoder_start :=
        replicate (length input_ids) [bos_id tokenizer_decoder] in
      Ok {| input_ids := Some input_ids;
            seq_preds :=
              Some (seq2seq batch requests input_ids decoder_start len_input
                      max_output_length);
            requests := requests; seq2seq_calls := 1 |}
  end.

(** ** [assemble_output] *)

Section walk.
(** The walk, over any state [St] that the local function [decode]
    updates and the test [example_id in preds] reads. *)
Context {St : Type}.
Variable present : Z → St → bool.
Variable decode : example → option ptag → nat → nat → nat → St → res St.

(** The inner loop [for j, tag in enumerate(tag_preds[i])], from index
    [j] on.  [jv] is the value of the variable [j] before the loop, which
    is what it still holds after a loop over no tag at all. *)
Fixpoint assemble_tokens (r : example) (i : nat) (tags : list Z) (j : nat)
    (prev_tag : option ptag) (start_index : nat) (jv : option nat) (s : St)
    : res (option ptag * nat * option nat * St) :=
  match tags with
  | [] => Ok (prev_tag, start_index, jv, s)
  | tag :: tags' =>
      match context_ids r !! j with
      | None => Err IndexError
      | Some c =>
          if c =? bos_id tokenizer_context then
            assemble_tokens r i tags' (S j) prev_tag start_index (Some j) s
          else if c =? eos_id tokenizer_context then
            Ok (prev_tag, start_index, Some j, s)
          else if tag =? O_I tag_labels then
            s' ← decode r prev_tag i start_index j s;
            assemble_tokens r i tags' (S j) (Some O) j (Some j) s'
          else if tag =? O_M tag_labels then
            match prev_tag with
            | Some O =>
                assemble_tokens r i tags' (S j) prev_tag start_index
                  (Some j) s
            | _ =>
                s' ← decode r prev_tag i start_index j s;
                assemble_tokens r i tags' (S j) (Some O) j (Some j) s'
            end
          else if tag =? B_I tag_labels then
            s' ← decode r prev_tag i start_index j s;
            assemble_tokens r i tags' (S j) (Some B) j (Some j) s'
          else
            match prev_tag with
            | Some B =>
                assemble_tokens r i tags' (S j) prev_tag start_index
                  (Some j) s
            | _ =>
                s' ← decode r prev_tag i start_index j s;
                assemble_tokens r i tags' (S j) (Some B) j (Some j) s'
            end
      end
  end.

(** The body of the outer loop for row [i]. *)
Definition assemble_example (r : example) (i : nat) (jv : option nat)
    (s : St) : res (option nat * St) :=
  if present (example_id r) s then Ok (jv, s)
  else
    '(prev_tag, start_index, jv', s') ←
      assemble_tokens r i (tag_preds r) 0 None 0 jv s;
    match jv' with
    | None => Err UnboundLocalError
    | Some j =>
        s'' ← decode r prev_tag i start_index j s';
        Ok (Some j, s'')
    end.

(** The outer loop [for i in range(len(context_ids))], from row [i] on. *)
Fixpoint assemble_rows (rows : list example) (i : nat) (jv : option nat)
    (s : St) : res (option nat * St) :=
  match rows with
  | [] => Ok (jv, s)
  | r :: rows' =>
      '(jv', s') ← assemble_example r i jv s;
      assemble_rows rows' (S i) jv' s'
  end.
End walk.

(** [preds[example_id].append(x)] on a [defaultdict(list)]. *)
Definition preds_append (preds : gmap Z (list string)) (k : Z) (x : string)
    : gmap Z (list string) :=
  <[k := default [] (preds !! k) ++ [x]]> preds.

(** [example_id in preds]. *)
Definition preds_present (k : Z) (s : gmap Z (list string) * nat) : bool :=
  bool_decide (is_Some (s.1 !! k)).

(** The local function [decode]; the state is [preds] and
    [decoder_counter]. *)
Definition decode (seq_preds : option (list (list Z))) (r : example)
    (prev_tag : option ptag) (i start_index j : nat)
    (s : gmap Z (list string) * nat) : res (gmap Z (list string) * nat) :=
  let '(preds, decoder_counter) := s in
  match prev_tag with
  | Some O =>
      Ok (preds_append preds (example_id r)
            (ids_to_text tokenizer_context
               (slice (context_ids r) start_index j)),
          decoder_counter)
  | Some B =>
      match seq_preds with
      | None => Err TypeError
      | Some seq_preds =>
          match seq_preds !! decoder_counter with
          | None => Err IndexError
          | Some ids =>
              Ok (preds_append preds (example_id r)
                    (ids_to_text tokenizer_decoder ids),
                  S decoder_counter)
          end
      end
  | None => Ok s
  end.

(** The two loops of [assemble_output], with the counter they end on. *)
Definition assemble_loop (seq_preds : option (list (list Z)))
    (batch : list example) : res (gmap Z (list string) * nat) :=
  snd <$> assemble_rows preds_present (decode seq_preds) batch 0 None (∅, 0%nat).

Definition assemble_output (seq_preds : option (list (list Z)))
    (batch : list example) : res (gmap Z (list string)) :=
  fst <$> assemble_loop seq_preds batch.

(** Reading a key of the returned [defaultdict(list)]. *)
Definition fragments (preds : gmap Z (list string)) (k : Z) : list string :=
  default [] (preds !! k).

(** ** The spans of [assemble_output] *)

(** The same walk with a [decode] that records its calls instead of
    producing text: the spans [assemble_output] cuts a batch into. *)
Definition span_present (k : Z) (t : list span) : bool :=
  bool_decide (k ∈ span_example <$> t).

Definition decode_span (r : example) (prev_tag : option ptag)
    (i start_index j : nat) (t : list span) : res (list span) :=
  match prev_tag with
  | Some c =>
      Ok (t ++ [ {| span_of := r; span_row := i;
                    span_cat := c; span_start := start_index;
                    span_end := j |} ])
  | None => Ok t
  end.

Definition assemble_spans (batch : list example) : res (list span) :=
  snd <$> assemble_rows span_present decode_span batch 0 None [].

(** ** [infer]: the loop over the batches *)

(** [all_preds.update(preds)]: the entries of [preds] replace those of
    [all_preds] under the same key. *)
Definition dict_update (all_preds preds : gmap Z (list string))
    : gmap Z (list string) :=
  preds ∪ all_preds.

Definition infer_batch (max_output_length : Z)
    (all_preds : gmap Z (list string)) (batch : list example)
    : res (gmap Z (list string)) :=
  out ← inference max_output_length batch;
  preds ← assemble_output (seq_preds out) batch;
  Ok (dict_update all_preds preds).

Fixpoint infer_batches (max_output_length : Z)
    (batches : list (list example)) (all_preds : gmap Z (list string))
    : res (gmap Z (list string)) :=
  match batches with
  | [] => Ok all_preds
  | batch :: batches' =>
      all_preds' ← infer_batch max_output_length all_preds batch;
      infer_batches max_output_length batches' all_preds'
  end.

(** [infer(cfg, max_output_length=10)] on the batches of its data loader. *)
Definition infer (max_output_length : Z) (batches : list (list example))
    : res (gmap Z (list string)) :=
  infer_batches max_output_length batches ∅.

(** ** Notions the properties are stated with *)

(** The calls of [decode] a list of spans stands for, replayed on the
    state of [assemble_output]. *)
Fixpoint run_spans (seq_preds : option (list (list Z))) (t : list span)
    (s : gmap Z (list string) * nat) : res (gmap Z (list string) * nat) :=
  match t with
  | [] => Ok s
  | x :: t' =>
      s' ← decode seq_preds (span_of x) (Some (span_cat x)) (span_row x)
             (span_start x) (span_end x) s;
      run_spans seq_preds t' s'
  end.

(** The spans that take a decoder output, and the entry of the three
    index lists each of them corresponds to. *)
Definition rewrite_spans (t : list span) : list span :=
  filter (λ x, span_cat x = B) t.

Definition lr_of_span (x : span) : lr :=
  {| row_index := span_row x;
     left_column_index := Z.of_nat (span_start x) - 1;
     right_column_index := Z.of_nat (span_end x) |}.

(** The text of a span copied from the context tokens. *)
Definition verbatim (x : span) : string :=
  ids_to_text tokenizer_context
    (slice (context_ids (span_of x)) (span_start x) (span_end x)).

(** [seq_preds] has a row for each of [n] decoder outputs. *)
Definition covers (seq_preds : option (list (list Z))) (n : nat) : bool :=
  match seq_preds with
  | None => (n =? 0)%nat
  | Some l => (n <=? length l)%nat
  end.

(** The four labels are distinct and so are the two markers. *)
Definition labels_ok : bool :=
  bool_decide (NoDup [O_I tag_labels; O_M tag_labels;
                      B_I tag_labels; B_M tag_labels])
  && bool_decide (bos_id tokenizer_context ≠ eos_id tokenizer_context).

Definition valid_tag (tag : Z) : bool :=
  bool_decide (tag ∈ [O_I tag_labels; O_M tag_labels;
                      B_I tag_labels; B_M tag_labels]).

Definition plain_id (c : Z) : bool :=
  bool_decide (c ≠ bos_id tokenizer_context ∧ c ≠ eos_id tokenizer_context).

(** The entries [l[1 : len - 1]] of a row of valid length [len]. *)
Definition body {A} (len : Z) (l : list A) : list A :=
  take (Z.to_nat (len - 2)) (drop 1 l).

(** A row as the data pipeline builds it: the start marker at index 0,
    the end marker at index [len_context - 1], neither of them in between,
    one of the four labels on every token in between, and the row of tags
    as long as the valid length at least. *)
Definition well_formed (r : example) : bool :=
  (2 <=? len_context r)
  && (len_context r <=? Z.of_nat (length (tag_preds r)))
  && bool_decide (context_ids r !! 0%nat = Some (bos_id tokenizer_context))
  && bool_decide (context_ids r !! Z.to_nat (len_context r - 1)
                  = Some (eos_id tokenizer_context))
  && forallb plain_id (body (len_context r) (context_ids r))
  && forallb valid_tag (body (len_context r) (tag_preds r)).

(** Category of a label, and the labels that open a span. *)
Definition category (tag : Z) : ptag :=
  if bool_decide (tag = O_I tag_labels ∨ tag = O_M tag_labels) then O else B.

Definition is_start (tag : Z) : bool :=
  bool_decide (tag = O_I tag_labels ∨ tag = B_I tag_labels).

(** The rule of the two walks for the first index of a span: index 1, a
    start label, or a category other than that of the token before. *)
Definition begins_span (tags : list Z) (j : nat) : bool :=
  (j =? 1)%nat
  || match tags !! j, tags !! (j - 1)%nat with
     | Some tag, Some tag' =>
         is_start tag || negb (bool_decide (category tag = category tag'))
     | _, _ => false
     end.

(** The rule as the specification words it, by which spans are maximal
    runs of one category: a span begins at index 1 and where the category
    is other than that of the token before, whatever the label. *)
Definition category_change (tags : list Z) (j : nat) : bool :=
  (j =? 1)%nat
  || match tags !! j, tags !! (j - 1)%nat with
     | Some tag, Some tag' =>
         negb (bool_decide (category tag = category tag'))
     | _, _ => false
     end.

(** The span [a, b) of row [i], of the category of the label at [a]. *)
Definition mk_span (r : example) (i a b : nat) : span :=
  {| span_of := r; span_row := i;
     span_cat := category (default 0 (tag_preds r !! a));
     span_start := a; span_end := b |}.

(** The spans of row [i] by a rule for first indices: each runs from one
    first index to the next, the last one to index [len_context - 1]. *)
Definition starts_by (rule : list Z → nat → bool) (r : example) : list nat :=
  filter (λ j, rule (tag_preds r) j = true)
    (seq 1 (Z.to_nat (len_context r - 2))).

Definition spans_by (rule : list Z → nat → bool) (r : example) (i : nat)
    : list span :=
  zip_with (mk_span r i) (starts_by rule r)
    (tail (starts_by rule r) ++ [Z.to_nat (len_context r - 1)]).

(** The spans by the rule of the two walks. *)
Definition segments : example → nat → list span := spans_by begins_span.

(** The spans as the specification words them. *)
Definition maximal_runs : example → nat → list span :=
  spans_by category_change.

(** Where the scan of a row ends as the specification words it: the first
    index below the valid length whose token is the end marker, the valid
    length if there is none. *)
Definition closure_point (r : example) : nat :=
  match list_find (λ c, c = eos_id tokenizer_context)
          (take (Z.to_nat (len_context r)) (context_ids r)) with
  | Some (j, _) => j
  | None => Z.to_nat (len_context r)
  end.

(** No two rows of the batch carry the same example id. *)
Definition distinct_ids (batch : list example) : bool :=
  bool_decide (NoDup (example_id <$> batch)).

(** The spans of a batch by that rule, a row whose example id has a span
    already being left out. *)
Fixpoint batch_segments (rows : list example) (i : nat) (t : list span)
    : list span :=
  match rows with
  | [] => t
  | r :: rows' =>
      batch_segments rows' (S i)
        (if span_present (example_id r) t then t else t ++ segments r i)
  end.

(** The span a call of [decode] closes, if [prev_tag] is set. *)
Definition open_span (r : example) (prev_tag : option ptag)
    (i start_index j : nat) : list span :=
  match prev_tag with
  | Some c =>
      [ {| span_of := r; span_row := i; span_cat := c;
           span_start := start_index; span_end := j |} ]
  | None => []
  end.

(** Whether the walks close the open span and open a new one on a token
    labelled [tag], [prev_tag] being the category of the open span. *)
Definition cuts (prev_tag : option ptag) (tag : Z) : bool :=
  match prev_tag with
  | None => true
  | Some c => is_start tag || negb (bool_decide (category tag = c))
  end.

(** The [prev_tag] of [inference] where that of [assemble_output] is
    [prev_tag]: [inference] keeps [None] on plain tokens. *)
Definition rewrite_prev (prev_tag : option ptag) : option ptag :=
  match prev_tag with
  | Some B => Some B
  | _ => None
  end.


(** A span that is not empty and lies between the indices [a] and [e]. *)
Definition within (a e : nat) (x : span) : Prop :=
  (a ≤ span_start x)%nat ∧ (span_start x < span_end x)%nat
  ∧ (span_end x ≤ e)%nat.

(** ** The steps around the two walks *)

(** [self._cfg.seq_decoder.max_len]. *)
Variable seq_decoder_max_len : Z.

(** What [validation_step] (and [test_step], which calls it) computes for
    the predictions of a batch: [inference] with the configured maximal
    output length, then [assemble_output] on its decoder outputs.  The
    losses are numeric and left out. *)
Definition validation_step (batch : list example)
    : res (gmap Z (list string)) :=
  out ← inference seq_decoder_max_len batch;
  assemble_output (seq_preds out) batch.

(** The predictions [validation_epoch_end] (and [test_epoch_end]) hands to
    the evaluation: [all_preds = {}], then [all_preds.update] with the
    predictions of every step, in order. *)
Definition validation_epoch_end (outputs : list (gmap Z (list string)))
    : gmap Z (list string) :=
  foldl dict_update ∅ outputs.

(** ** Further notions the properties are stated with *)

(** Every two neighbours of a list are related. *)
Definition adjacent {X} (R : X → X → Prop) (l : list X) : Prop :=
  ∀ k x y, l !! k = Some x → l !! S k = Some y → R x y.

(** An entry registered before another: in an earlier row, or in the same
    row and ending where the other begins or before. *)
Definition lr_before (q q' : lr) : Prop :=
  (row_index q < row_index q')%nat
  ∨ (row_index q = row_index q'
     ∧ right_column_index q ≤ left_column_index q' + 1).

(** A span before another: in an earlier row, or in the same row, not
    empty, and ending exactly where the other begins. *)
Definition span_before (x y : span) : Prop :=
  (span_row x < span_row y)%nat
  ∨ (span_row x = span_row y
     ∧ (span_start x < span_end x)%nat ∧ span_end x = span_start y).

(** An entry that lies in row [row_index] of the batch, between index 0 and
    the index of the last valid token of that row. *)
Definition in_range (batch : list example) (q : lr) : Prop :=
  ∃ r, batch !! row_index q = Some r
       ∧ 0 ≤ left_column_index q
       ∧ left_column_index q + 2 ≤ right_column_index q
       ∧ right_column_index q ≤ len_context r - 1
       ∧ right_column_index q < Z.of_nat (length (tag_preds r)).

(** The tokens of a span. *)
Definition span_tokens (x : span) : list Z :=
  slice (context_ids (span_of x)) (span_start x) (span_end x).

(** The fragments of a list of spans, the rewrite spans taking the decoder
    outputs from row [n] of [seq_preds] on; [None] when they run out. *)
Fixpoint span_texts (seq_preds : list (list Z)) (n : nat) (t : list span)
    : option (list string) :=
  match t with
  | [] => Some []
  | x :: t' =>
      match span_cat x with
      | O => (verbatim x ::.) <$> span_texts seq_preds n t'
      | B =>
          ids ← seq_preds !! n;
          (ids_to_text tokenizer_decoder ids ::.)
            <$> span_texts seq_preds (S n) t'
      end
  end.

(** A row on which the inner loop of [assemble_output] meets no token it
    considers: from index [j] on, over the tags not yet visited, every
    token is the start marker, up to an end marker or the end of the tags. *)
Fixpoint blank_from (r : example) (tags : list Z) (j : nat) : bool :=
  match tags with
  | [] => true
  | _ :: tags' =>
      match context_ids r !! j with
      | None => false
      | Some c =>
          if c =? bos_id tokenizer_context then blank_from r tags' (S j)
          else c =? eos_id tokenizer_context
      end
  end.

(** Such a row with a tag at least: [BOS], [BOS EOS ...], [BOS BOS EOS ...]
    and the like. *)
Definition blank (r : example) : bool :=
  match tag_preds r with
  | [] => false
  | tags => blank_from r tags 0
  end.

(** What the walk of [assemble_output] keeps true of the spans recorded so
    far while it is in row [i] with the open span of [prev_tag] beginning at
    [start_index]: neighbours abut, no span runs backwards, and the last
    span is of an earlier row or is the non-empty span of row [i] that ends
    at [start_index]. *)
Definition walk_inv (i : nat) (prev_tag : option ptag) (start_index : nat)
    (t : list span) : Prop :=
  adjacent span_before t
  ∧ Forall (λ x, (span_start x ≤ span_end x)%nat) t
  ∧ ∀ x, last t = Some x →
         (span_row x < i)%nat
         ∨ (span_row x = i ∧ is_Some prev_tag ∧ span_end x = start_index
            ∧ (span_start x < span_end x)%nat).

(** ** Accumulators *)

Lemma register_lr_acc prev_tag i start_index j acc :
  register_lr prev_tag i start_index j acc
  = acc ++ register_lr prev_tag i start_index j [].
Proof. destruct prev_tag; simpl; by rewrite ?app_nil_r. Qed.

Lemma inference_tokens_acc i len_i tags : ∀ j prev_tag start_index acc,
  inference_tokens i len_i tags j prev_tag start_index acc
  = acc ++ inference_tokens i len_i tags j prev_tag start_index [].
Proof.
  induction tags as [|tag tags IH]; intros j p st acc; simpl.
  - by rewrite app_nil_r.
  - repeat case_match; try apply register_lr_acc; try apply IH;
      rewrite IH, (IH _ _ _ (register_lr _ _ _ _ [])),
        (register_lr_acc _ _ _ _ acc); by rewrite app_assoc.
Qed.

Lemma inference_rows_acc rows : ∀ i acc,
  inference_rows rows i acc = acc ++ inference_rows rows i [].
Proof.
  induction rows as [|r rows IH]; intros i acc; simpl.
  - by rewrite app_nil_r.
  - rewrite IH, (IH _ (inference_tokens _ _ _ _ _ _ [])),
      (inference_tokens_acc _ _ _ _ _ _ acc).
    by rewrite app_assoc.
Qed.

Lemma inference_rows_cons r rows i :
  inference_rows (r :: rows) i []
  = inference_tokens i (len_context r) (tag_preds r) 0 None 0 []
    ++ inference_rows rows (S i) [].
Proof. simpl. apply inference_rows_acc. Qed.

(** ** The result monad *)

Lemma res_bind_Ok {A} (m : res A) : (m ≫= Ok) = m.
Proof. by destruct m. Qed.

Lemma res_bind_assoc {A X Y} (m : res A) (f : A → res X) (g : X → res Y) :
  ((m ≫= f) ≫= g) = (m ≫= λ a, f a ≫= g).
Proof. by destruct m. Qed.

(** ** [assemble_output] replays the spans of its walk *)

Lemma decode_span_open r prev_tag i start_index j t :
  decode_span r prev_tag i start_index j t
  = Ok (t ++ open_span r prev_tag i start_index j).
Proof. destruct prev_tag; simpl; by rewrite ?app_nil_r. Qed.

Lemma decode_open sp r prev_tag i start_index j s :
  decode sp r prev_tag i start_index j s
  = run_spans sp (open_span r prev_tag i start_index j) s.
Proof.
  destruct prev_tag as [c|]; simpl; [|by destruct s].
  by rewrite res_bind_Ok.
Qed.

Lemma run_spans_app sp t1 : ∀ t2 s,
  run_spans sp (t1 ++ t2) s = (run_spans sp t1 s ≫= run_spans sp t2).
Proof.
  induction t1 as [|x t1 IH]; intros t2 s; simpl; [done|].
  rewrite res_bind_assoc.
  destruct (decode _ _ _ _ _ _ _); simpl; [apply IH|done].
Qed.

Lemma assemble_tokens_replay sp r i tags :
  ∀ j prev_tag start_index jv t prev_tag' start_index' jv' t',
  assemble_tokens decode_span r i tags j prev_tag start_index jv t
    = Ok (prev_tag', start_index', jv', t') →
  ∃ d, t' = t ++ d ∧ ∀ s,
    assemble_tokens (decode sp) r i tags j prev_tag start_index jv s
    = (s' ← run_spans sp d s; Ok (prev_tag', start_index', jv', s')).
Proof.
  induction tags as [|tag tags IH];
    intros j p st jv t p' st' jv' t' Hw; simpl in *.
  { simplify_eq. exists []. by rewrite app_nil_r. }
  destruct (context_ids r !! j) as [c|]; [|done].
  repeat case_match; simplify_eq;
    try (exists []; by rewrite app_nil_r);
    try (by eapply IH);
    rewrite decode_span_open in Hw; simpl in Hw;
    apply IH in Hw as (d & -> & Hd);
    (eexists (_ ++ d); split; [by rewrite app_assoc|]);
    intros s; rewrite decode_open, run_spans_app, res_bind_assoc;
    (destruct (run_spans sp _ s); simpl; [apply Hd|done]).
Qed.

Lemma preds_append_is_Some preds k x k' :
  is_Some (preds_append preds k x !! k') ↔ k' = k ∨ is_Some (preds !! k').
Proof.
  unfold preds_append. rewrite lookup_insert_is_Some.
  destruct (decide (k = k')); intuition congruence.
Qed.

Lemma decode_present sp x s s' k :
  decode sp (span_of x) (Some (span_cat x)) (span_row x) (span_start x)
    (span_end x) s = Ok s' →
  is_Some (s'.1 !! k) ↔ k = span_example x ∨ is_Some (s.1 !! k).
Proof.
  destruct s as [preds n]; simpl. unfold span_example.
  destruct (span_cat x); [|destruct sp as [l|]; [destruct (l !! n)|]];
    intros; simplify_eq; simpl; apply preds_append_is_Some.
Qed.

Lemma run_spans_present sp d : ∀ s s' t,
  run_spans sp d s = Ok s' →
  (∀ k, preds_present k s = span_present k t) →
  ∀ k, preds_present k s' = span_present k (t ++ d).
Proof.
  induction d as [|x d IH]; intros s s' t Hrun Hst k; simpl in *.
  { simplify_eq. by rewrite app_nil_r. }
  destruct (decode _ _ _ _ _ _ s) as [s1|] eqn:Hdec; [|done]. simpl in Hrun.
  rewrite (assoc_L _ t [x] d : t ++ x :: d = (t ++ [x]) ++ d).
  eapply IH; [done|]. intros k'.
  unfold preds_present, span_present in *. apply bool_decide_ext.
  rewrite (decode_present _ _ _ _ _ Hdec), fmap_app, elem_of_app.
  rewrite list_fmap_singleton, list_elem_of_singleton.
  specialize (Hst k').
  assert (is_Some (s.1 !! k') ↔ k' ∈ span_example <$> t) as Hiff
    by (by rewrite <- (bool_decide_eq_true (is_Some _)), Hst,
             bool_decide_eq_true).
  tauto.
Qed.

Lemma assemble_example_replay sp r i jv t jv' t' :
  assemble_example span_present decode_span r i jv t = Ok (jv', t') →
  ∃ d, t' = t ++ d ∧ ∀ s,
    preds_present (example_id r) s = span_present (example_id r) t →
    assemble_example preds_present (decode sp) r i jv s
    = (s' ← run_spans sp d s; Ok (jv', s')).
Proof.
  unfold assemble_example. intros Hw.
  destruct (span_present _ t) eqn:Hp.
  { simplify_eq. exists []. rewrite app_nil_r. split; [done|].
    by intros s ->. }
  destruct (assemble_tokens decode_span _ _ _ _ _ _ _ _)
    as [[[[p st] [j|]] t1]|] eqn:Ht; simpl in Hw; try done.
  rewrite decode_span_open in Hw. simpl in Hw. simplify_eq.
  eapply (assemble_tokens_replay sp) in Ht as (d & -> & Hd).
  eexists (d ++ _). split; [by rewrite app_assoc|].
  intros s ->.
  rewrite Hd, run_spans_app, !res_bind_assoc.
  destruct (run_spans sp d s) as [s1|]; simpl; [|done].
  rewrite decode_open. by destruct (run_spans _ _ s1).
Qed.

Lemma assemble_rows_replay sp rows : ∀ i jv t jv' t',
  assemble_rows span_present decode_span rows i jv t = Ok (jv', t') →
  ∃ d, t' = t ++ d ∧ ∀ s,
    (∀ k, preds_present k s = span_present k t) →
    assemble_rows preds_present (decode sp) rows i jv s
    = (s' ← run_spans sp d s; Ok (jv', s')).
Proof.
  induction rows as [|r rows IH]; intros i jv t jv' t' Hw; simpl in *.
  { simplify_eq. exists []. by rewrite app_nil_r. }
  destruct (assemble_example span_present _ _ _ _ _) as [[jv1 t1]|] eqn:He;
    [|done]. simpl in Hw.
  eapply (assemble_example_replay sp) in He as (d1 & -> & Hd1).
  eapply IH in Hw as (d & -> & Hd).
  exists (d1 ++ d). split; [by rewrite app_assoc|].
  intros s Hst. rewrite Hd1, res_bind_assoc, run_spans_app by apply Hst.
  destruct (run_spans sp d1 s) as [s1|] eqn:Hrun; simpl; [|done].
  apply Hd. by eapply run_spans_present.
Qed.

(** [assemble_output] is the replay of the spans its walk records. *)
Lemma assemble_loop_replay sp batch t :
  assemble_spans batch = Ok t →
  assemble_loop sp batch = run_spans sp t (∅, 0%nat).
Proof.
  unfold assemble_spans, assemble_loop. intros Hw.
  destruct (assemble_rows span_present _ _ _ _ _) as [[jv' t']|] eqn:Hr;
    [|done].
  simpl in Hw. simplify_eq.
  eapply (assemble_rows_replay sp) in Hr as (d & -> & Hd).
  rewrite Hd; [simpl; by destruct (run_spans sp d (∅, 0%nat))|].
  intros k. unfold preds_present, span_present. simpl.
  apply bool_decide_eq_false. rewrite lookup_empty. by intros [].
Qed.

(** ** Replaying spans: the counter, the errors and the fragments *)

Lemma rewrite_spans_cons x t :
  rewrite_spans (x :: t)
  = if span_cat x is B then x :: rewrite_spans t else rewrite_spans t.
Proof.
  unfold rewrite_spans. rewrite filter_cons.
  destruct (span_cat x); by case_decide.
Qed.

Lemma rewrite_spans_app t1 t2 :
  rewrite_spans (t1 ++ t2) = rewrite_spans t1 ++ rewrite_spans t2.
Proof. apply filter_app. Qed.

Lemma run_spans_counter sp t : ∀ preds n preds' n',
  run_spans sp t (preds, n) = Ok (preds', n') →
  n' = (n + length (rewrite_spans t))%nat.
Proof.
  induction t as [|x t IH]; intros preds n preds' n' Hrun; simpl in *.
  { simplify_eq. lia. }
  rewrite rewrite_spans_cons.
  destruct (span_cat x); [|destruct sp as [l|]; [destruct (l !! n)|]];
    simpl in Hrun; try done; apply IH in Hrun; simpl; lia.
Qed.

Lemma run_spans_enough l t : ∀ preds n,
  (n + length (rewrite_spans t) ≤ length l)%nat →
  ∃ preds', run_spans (Some l) t (preds, n)
            = Ok (preds', (n + length (rewrite_spans t))%nat).
Proof.
  induction t as [|x t IH]; intros preds n Hlen; simpl in *.
  { exists preds. f_equal. f_equal. lia. }
  rewrite rewrite_spans_cons in *.
  destruct (span_cat x); simpl in *.
  - apply IH. lia.
  - destruct (lookup_lt_is_Some_2 l n) as [ids ->]; [lia|]. simpl.
    edestruct (IH (preds_append preds (example_id (span_of x))
                     (ids_to_text tokenizer_decoder ids)) (S n))
      as [preds' ->]; [lia|].
    exists preds'. f_equal. f_equal. lia.
Qed.

Lemma run_spans_short l t : ∀ preds n,
  (n ≤ length l < n + length (rewrite_spans t))%nat →
  run_spans (Some l) t (preds, n) = Err IndexError.
Proof.
  induction t as [|x t IH]; intros preds n Hlen; simpl in *; [lia|].
  rewrite rewrite_spans_cons in *.
  destruct (span_cat x); simpl in *.
  - apply IH. lia.
  - destruct (l !! n) as [ids|] eqn:Hn; simpl; [|done].
    apply lookup_lt_Some in Hn. apply IH. lia.
Qed.

Lemma run_spans_None t : ∀ preds n,
  rewrite_spans t ≠ [] → run_spans None t (preds, n) = Err TypeError.
Proof.
  induction t as [|x t IH]; intros preds n Hne; simpl in *; [done|].
  rewrite rewrite_spans_cons in *.
  destruct (span_cat x); simpl in *; [by apply IH|done].
Qed.

Lemma run_spans_verbatim sp t : ∀ preds n,
  rewrite_spans t = [] →
  run_spans sp t (preds, n)
  = Ok (foldl (λ p x, preds_append p (span_example x) (verbatim x)) preds t,
        n).
Proof.
  induction t as [|x t IH]; intros preds n Hne; simpl in *; [done|].
  rewrite rewrite_spans_cons in *.
  destruct (span_cat x); simpl in *; [by apply IH|done].
Qed.

Lemma run_spans_other sp t k : ∀ s s',
  run_spans sp t s = Ok s' → k ∉ span_example <$> t → s'.1 !! k = s.1 !! k.
Proof.
  induction t as [|x t IH]; intros s s' Hrun Hk; simpl in *.
  { by simplify_eq. }
  apply not_elem_of_cons in Hk as [Hx Hk].
  destruct (decode _ _ _ _ _ _ s) as [s1|] eqn:Hdec; [|done]. simpl in Hrun.
  rewrite (IH _ _ Hrun Hk). clear Hrun.
  destruct s as [preds n]; simpl in *. unfold span_example in Hx.
  destruct (span_cat x); [|destruct sp as [l|]; [destruct (l !! n)|]];
    simplify_eq; simpl; unfold preds_append; by rewrite lookup_insert_ne.
Qed.

Lemma fragments_append preds k x k' :
  fragments (preds_append preds k x) k'
  = fragments preds k' ++ (if decide (k = k') then [x] else []).
Proof.
  unfold fragments, preds_append.
  case_decide; simplify_eq.
  - by rewrite lookup_insert_eq.
  - by rewrite lookup_insert_ne, app_nil_r.
Qed.

Lemma fragments_verbatim t k : ∀ preds,
  fragments
    (foldl (λ p x, preds_append p (span_example x) (verbatim x)) preds t) k
  = fragments preds k
    ++ (verbatim <$> filter (λ x, span_example x = k) t).
Proof.
  induction t as [|x t IH]; intros preds; simpl.
  { by rewrite app_nil_r. }
  rewrite IH, fragments_append, filter_cons.
  case_decide; simpl; by rewrite <- ?app_assoc, ?app_nil_r.
Qed.

(** ** One step of either walk on a labelled token *)

Section labels.
Hypothesis Hlabels : labels_ok = true.

Lemma labels_distinct :
  O_I tag_labels ≠ O_M tag_labels ∧ O_I tag_labels ≠ B_I tag_labels ∧
  O_I tag_labels ≠ B_M tag_labels ∧ O_M tag_labels ≠ B_I tag_labels ∧
  O_M tag_labels ≠ B_M tag_labels ∧ B_I tag_labels ≠ B_M tag_labels ∧
  bos_id tokenizer_context ≠ eos_id tokenizer_context.
Proof.
  unfold labels_ok in Hlabels. apply andb_prop in Hlabels as [Hn Hm].
  apply bool_decide_eq_true in Hn, Hm.
  rewrite !NoDup_cons, !not_elem_of_cons in Hn. intuition.
Qed.

Lemma valid_tag_inv tag :
  valid_tag tag = true →
  tag = O_I tag_labels ∨ tag = O_M tag_labels ∨
  tag = B_I tag_labels ∨ tag = B_M tag_labels.
Proof.
  unfold valid_tag. rewrite bool_decide_eq_true, !elem_of_cons, elem_of_nil.
  tauto.
Qed.

Lemma assemble_tokens_step {St}
    (dec : example → option ptag → nat → nat → nat → St → res St)
    r i tag tags j prev_tag start_index jv s c :
  context_ids r !! j = Some c → plain_id c = true → valid_tag tag = true →
  assemble_tokens dec r i (tag :: tags) j prev_tag start_index jv s
  = if cuts prev_tag tag then
      s' ← dec r prev_tag i start_index j s;
      assemble_tokens dec r i tags (S j) (Some (category tag)) j (Some j) s'
    else
      assemble_tokens dec r i tags (S j) prev_tag start_index (Some j) s.
Proof.
  intros Hc Hp Hv. simpl. rewrite Hc.
  apply bool_decide_eq_true in Hp as [Hb He].
  rewrite (proj2 (Z.eqb_neq _ _) Hb), (proj2 (Z.eqb_neq _ _) He).
  pose proof labels_distinct as (H1 & H2 & H3 & H4 & H5 & H6 & H7).
  unfold cuts, category, is_start.
  destruct (valid_tag_inv _ Hv) as [-> | [-> | [-> | ->]]];
    repeat first
      [ rewrite Z.eqb_refl
      | rewrite (proj2 (Z.eqb_neq _ _)) by congruence ];
    destruct prev_tag as [[]|]; simpl;
    repeat case_bool_decide; simpl; try done; intuition congruence.
Qed.

Lemma inference_tokens_step i len_i tag tags j prev_tag start_index acc :
  (1 ≤ j)%nat → Z.of_nat j < len_i - 1 → valid_tag tag = true →
  prev_tag ≠ Some O →
  inference_tokens i len_i (tag :: tags) j prev_tag start_index acc
  = match category tag with
    | O =>
        inference_tokens i len_i tags (S j) None start_index
          (register_lr prev_tag i start_index j acc)
    | B =>
        if cuts prev_tag tag then
          inference_tokens i len_i tags (S j) (Some B) j
            (register_lr prev_tag i start_index j acc)
        else
          inference_tokens i len_i tags (S j) prev_tag start_index acc
    end.
Proof.
  intros Hj Hlen Hv Hp. simpl.
  destruct (Nat.eqb_spec j 0) as [|_]; [lia|].
  destruct (Z.geb_spec (Z.of_nat j) (len_i - 1)) as [|_]; [lia|].
  pose proof labels_distinct as (H1 & H2 & H3 & H4 & H5 & H6 & H7).
  unfold cuts, category, is_start.
  destruct (valid_tag_inv _ Hv) as [-> | [-> | [-> | ->]]];
    repeat first
      [ rewrite Z.eqb_refl
      | rewrite (proj2 (Z.eqb_neq _ _)) by congruence ];
    destruct prev_tag as [[]|]; simpl;
    repeat case_bool_decide; simpl; try done; intuition congruence.
Qed.

(** ** The shape of a well-formed row *)

Lemma well_formed_inv r :
  well_formed r = true →
  let n := Z.to_nat (len_context r - 2) in
  len_context r = Z.of_nat n + 2 ∧
  context_ids r !! 0%nat = Some (bos_id tokenizer_context) ∧
  context_ids r !! S n = Some (eos_id tokenizer_context) ∧
  (S n < length (tag_preds r))%nat ∧
  ∀ j, (1 ≤ j ≤ n)%nat →
    ∃ c tag, context_ids r !! j = Some c ∧ plain_id c = true ∧
             tag_preds r !! j = Some tag ∧ valid_tag tag = true.
Proof.
  intros Hwf n. unfold well_formed in Hwf.
  rewrite !andb_true_iff, !bool_decide_eq_true in Hwf.
  destruct Hwf as [[[[[Hlen Htags] Hbos] Heos] Hids] Hval].
  apply Z.leb_le in Hlen, Htags.
  replace (Z.to_nat (len_context r - 1)) with (S n) in Heos by lia.
  split_and!; [lia|done|done|lia|].
  intros j Hj.
  rewrite forallb_forall in Hids, Hval.
  assert (is_Some (body (len_context r) (context_ids r) !! (j - 1)%nat))
    as [c Hc].
  { apply lookup_lt_is_Some. unfold body.
    apply lookup_lt_Some in Heos.
    rewrite length_take, length_drop. lia. }
  assert (is_Some (body (len_context r) (tag_preds r) !! (j - 1)%nat))
    as [tag Htag].
  { apply lookup_lt_is_Some. unfold body.
    rewrite length_take, length_drop. lia. }
  exists c, tag.
  pose proof (Hids c) as Hc'. pose proof (Hval tag) as Htag'.
  rewrite <- list_elem_of_In in Hc', Htag'.
  specialize (Hc' (list_elem_of_lookup_2 _ _ _ Hc)).
  specialize (Htag' (list_elem_of_lookup_2 _ _ _ Htag)).
  unfold body in Hc, Htag.
  rewrite lookup_take_lt, lookup_drop in Hc by lia.
  rewrite lookup_take_lt, lookup_drop in Htag by lia.
  by replace (1 + (j - 1))%nat with j in * by lia.
Qed.

(** ** The two walks on a well-formed row *)

Lemma inference_tokens_None_start i len_i tags : ∀ j start_index st' acc,
  inference_tokens i len_i tags j None start_index acc
  = inference_tokens i len_i tags j None st' acc.
Proof.
  induction tags as [|tag tags IH]; intros j st st' acc; simpl; [done|].
  repeat case_match; try done; apply IH.
Qed.

Lemma lr_open_span r prev_tag i start_index j :
  lr_of_span <$> rewrite_spans (open_span r prev_tag i start_index j)
  = register_lr (rewrite_prev prev_tag) i start_index j [].
Proof. by destruct prev_tag as [[]|]. Qed.

Lemma mk_span_cat r i a b c :
  category (default 0 (tag_preds r !! a)) = c →
  mk_span r i a b
  = {| span_of := r; span_row := i; span_cat := c;
       span_start := a; span_end := b |}.
Proof. by intros <-. Qed.

Section row.
Variables (r : example) (i : nat).
Hypothesis Hwf : well_formed r = true.

Let n := Z.to_nat (len_context r - 2).

Lemma body_walk m : ∀ j prev_tag start_index jv t,
  (j + m = S n)%nat → (1 ≤ j)%nat →
  match prev_tag with
  | None => j = 1%nat
  | Some c =>
      (1 < j)%nat ∧
      ∃ tag', tag_preds r !! (j - 1)%nat = Some tag' ∧
              c = category tag' ∧
              category (default 0 (tag_preds r !! start_index)) = c
  end →
  let fs := filter (λ j, begins_span (tag_preds r) j = true) (seq j m) in
  ∃ prev_tag' start_index' d,
    assemble_tokens decode_span r i (drop j (tag_preds r)) j
      prev_tag start_index jv t
    = Ok (prev_tag', start_index', Some (S n), t ++ d)
    ∧ d ++ open_span r prev_tag' i start_index' (S n)
      = match prev_tag with
        | None => zip_with (mk_span r i) fs (tail fs ++ [S n])
        | Some _ =>
            zip_with (mk_span r i) (start_index :: fs) (fs ++ [S n])
        end
    ∧ lr_of_span
        <$> rewrite_spans (d ++ open_span r prev_tag' i start_index' (S n))
      = inference_tokens i (len_context r) (drop j (tag_preds r)) j
          (rewrite_prev prev_tag) start_index [].
Proof.
  destruct (well_formed_inv r Hwf) as (Hlen & Hbos & Heos & Htags & Hbody).
  fold n in Hlen, Heos, Htags, Hbody.
  pose proof labels_distinct as (_ & _ & _ & _ & _ & _ & Hmark).
  induction m as [|m IH]; intros j p st jv t Hj H1 Hinv fs.
  - assert (j = S n) as -> by lia. subst fs. simpl.
    destruct (lookup_lt_is_Some_2 (tag_preds r) (S n)) as [tend Htend];
      [done|].
    rewrite (drop_S _ _ _ Htend). simpl. rewrite Heos.
    rewrite (proj2 (Z.eqb_neq _ _)) by congruence.
    rewrite Z.eqb_refl.
    destruct (Z.geb_spec (Z.of_nat (S n)) (len_context r - 1)); [|lia].
    exists p, st, []. rewrite app_nil_r. split_and!; [done| |].
    + destruct p as [c|]; simpl; [|done].
      destruct Hinv as (_ & tag' & _ & -> & Hst).
      by rewrite (mk_span_cat _ _ _ _ _ Hst).
    + apply lr_open_span.
  - destruct (Hbody j) as (c & tag & Hc & Hplain & Htag & Hvalid); [lia|].
    rewrite (drop_S _ _ _ Htag).
    rewrite (assemble_tokens_step _ _ _ _ _ _ _ _ _ _ c) by done.
    rewrite inference_tokens_step;
      [|done|lia|done|by destruct p as [[]|]].
    assert (begins_span (tag_preds r) j = cuts p tag) as Hcut.
    { unfold begins_span, cuts. rewrite Htag.
      destruct p as [c'|].
      - destruct Hinv as (Hj1 & tag' & -> & -> & _).
        by destruct (Nat.eqb_spec j 1); [lia|].
      - subst j. done. }
    subst fs. cbn [seq]. rewrite filter_cons, Hcut.
    destruct (cuts p tag) eqn:Hcuts.
    + rewrite decode_span_open. cbn [mbind res_bind].
      destruct (IH (S j) (Some (category tag)) j (Some j)
                  (t ++ open_span r p i st j))
        as (p' & st' & d & Hw & Hd & He); [lia|lia| |].
      { split; [lia|]. exists tag.
        replace (S j - 1)%nat with j by lia. by rewrite Htag. }
      exists p', st', (open_span r p i st j ++ d).
      rewrite Hw, <- !app_assoc, rewrite_spans_app, fmap_app, He, Hd.
      rewrite decide_True by done.
      split_and!; [done| |].
      * destruct p as [c'|]; simpl; [|done].
        destruct Hinv as (_ & tag' & _ & _ & Hst).
        by rewrite (mk_span_cat _ _ _ _ _ Hst).
      * rewrite lr_open_span. cbn [rewrite_prev].
        destruct (category tag) eqn:Hcat.
        -- rewrite (inference_tokens_acc _ _ _ _ _ _
                      (register_lr _ _ _ _ _)).
           f_equal. apply inference_tokens_None_start.
        -- assert (cuts (rewrite_prev p) tag = true) as ->.
           { destruct p as [[]|]; simpl in *; try done;
               by rewrite Hcat in Hcuts. }
           by rewrite (inference_tokens_acc _ _ _ _ _ _
                         (register_lr _ _ _ _ _)).
    + destruct p as [c'|]; [|done].
      destruct Hinv as (Hj1 & tag' & Htag' & -> & Hst).
      simpl in Hcuts. apply orb_false_elim in Hcuts as [Hs Hcat].
      apply negb_false_iff, bool_decide_eq_true in Hcat.
      destruct (IH (S j) (Some (category tag')) st (Some j) t)
        as (p' & st' & d & Hw & Hd & He); [lia|lia| |].
      { split; [lia|]. exists tag.
        replace (S j - 1)%nat with j by lia. by rewrite Htag. }
      exists p', st', d. rewrite Hw, He, Hd.
      rewrite decide_False by done.
      split_and!; [done|done|].
      rewrite <- Hcat.
      destruct (category tag) eqn:Hcat'; simpl; [done|].
      by rewrite Hs, Hcat'.
Qed.

Lemma row_walk jv t :
  ∃ prev_tag' start_index' d,
    assemble_tokens decode_span r i (tag_preds r) 0 None 0 jv t
    = Ok (prev_tag', start_index', Some (S n), t ++ d)
    ∧ d ++ open_span r prev_tag' i start_index' (S n) = segments r i
    ∧ lr_of_span <$> rewrite_spans (segments r i)
      = inference_tokens i (len_context r) (tag_preds r) 0 None 0 [].
Proof.
  destruct (well_formed_inv r Hwf) as (Hlen & Hbos & Heos & Htags & _).
  fold n in Hlen, Heos, Htags.
  destruct (body_walk n 1 None 0 (Some 0%nat) t)
    as (p' & st' & d & Hw & Hd & He); [lia|lia|done|].
  exists p', st', d.
  destruct (lookup_lt_is_Some_2 (tag_preds r) 0) as [t0 Ht0]; [lia|].
  pose proof (drop_S _ _ _ Ht0) as Hdr. rewrite drop_0 in Hdr.
  assert (segments r i
          = d ++ open_span r p' i st' (S n)) as Hseg.
  { rewrite Hd. unfold segments, spans_by, starts_by. fold n.
    by replace (Z.to_nat (len_context r - 1)) with (S n) by lia. }
  split_and!; [|done|].
  - transitivity
      (assemble_tokens decode_span r i (t0 :: drop 1 (tag_preds r))
         0 None 0 jv t); [by rewrite <- Hdr|].
    cbn [assemble_tokens]. by rewrite Hbos, Z.eqb_refl.
  - rewrite Hseg, He.
    transitivity
      (inference_tokens i (len_context r) (t0 :: drop 1 (tag_preds r))
         0 None 0 []); [done|by rewrite <- Hdr].
Qed.

Lemma assemble_example_segments jv t :
  span_present (example_id r) t = false →
  assemble_example span_present decode_span r i jv t
  = Ok (Some (S n), t ++ segments r i).
Proof.
  intros Hp. unfold assemble_example. rewrite Hp.
  destruct (row_walk jv t) as (p' & st' & d & -> & <- & _).
  cbn [mbind res_bind]. rewrite decode_span_open. cbn [mbind res_bind].
  by rewrite app_assoc.
Qed.

Lemma inference_tokens_segments :
  inference_tokens i (len_context r) (tag_preds r) 0 None 0 []
  = lr_of_span <$> rewrite_spans (segments r i).
Proof. by destruct (row_walk None []) as (p' & st' & d & _ & _ & ->). Qed.

End row.

(** ** The two walks on a batch of well-formed rows *)

Lemma forallb_Forall {X} (f : X → bool) l :
  forallb f l = true ↔ Forall (λ x, f x = true) l.
Proof.
  induction l as [|x l IH]; [by split; [constructor|]|].
  cbn [forallb]. split.
  - intros [Hx Hl]%andb_prop. constructor; [done|by apply IH].
  - intros [Hx Hl]%Forall_cons. apply IH in Hl. by rewrite Hx, Hl.
Qed.

Lemma segments_of r i x : x ∈ segments r i → span_of x = r.
Proof.
  unfold segments, spans_by.
  by intros (a & b & -> & _)%elem_of_zip_with.
Qed.

Lemma segments_examples r i k :
  k ∈ span_example <$> segments r i → k = example_id r.
Proof.
  rewrite list_elem_of_fmap. intros (x & -> & Hx).
  unfold span_example. by rewrite (segments_of _ _ _ Hx).
Qed.

Lemma assemble_rows_segments rows :
  Forall (λ r, well_formed r = true) rows →
  ∀ i jv t, ∃ jv',
    assemble_rows span_present decode_span rows i jv t
    = Ok (jv', batch_segments rows i t).
Proof.
  induction 1 as [|r rows Hr _ IH]; intros i jv t;
    cbn [assemble_rows batch_segments]; [by eexists|].
  destruct (span_present (example_id r) t) eqn:Hp.
  - unfold assemble_example. rewrite Hp. cbn [mbind res_bind]. apply IH.
  - rewrite assemble_example_segments by done.
    cbn [mbind res_bind]. apply IH.
Qed.

Lemma assemble_spans_segments batch :
  forallb well_formed batch = true →
  assemble_spans batch = Ok (batch_segments batch 0 []).
Proof.
  intros Hwf. apply forallb_Forall in Hwf. unfold assemble_spans.
  by destruct (assemble_rows_segments batch Hwf 0%nat None []) as [jv' ->].
Qed.

Lemma span_present_false k t :
  span_present k t = false ↔ k ∉ span_example <$> t.
Proof. unfold span_present. by rewrite bool_decide_eq_false. Qed.

Lemma batch_segments_distinct rows :
  Forall (λ r, well_formed r = true) rows →
  NoDup (example_id <$> rows) →
  ∀ i t,
    (∀ r, r ∈ rows → example_id r ∉ span_example <$> t) →
    lr_of_span <$> rewrite_spans (batch_segments rows i t)
    = (lr_of_span <$> rewrite_spans t) ++ inference_rows rows i [].
Proof.
  induction 1 as [|r rows Hr _ IH]; intros Hnd i t Ht.
  { simpl. by rewrite app_nil_r. }
  rewrite fmap_cons, NoDup_cons in Hnd. destruct Hnd as [Hr' Hnd].
  cbn [batch_segments].
  rewrite (proj2 (span_present_false _ _)) by (apply Ht; left).
  rewrite IH, rewrite_spans_app, fmap_app, inference_rows_cons,
    inference_tokens_segments, <- app_assoc; [done..|].
  intros r' Hr'' Hin. rewrite fmap_app, elem_of_app in Hin.
  destruct Hin as [Hin|Hin].
  - eapply Ht; [right|]; done.
  - apply segments_examples in Hin. apply Hr'.
    rewrite <- Hin. by apply list_elem_of_fmap_2.
Qed.

End labels.

(** ** The registered columns are ordered, and the assertion is idle *)



(** The [assert] statement of [inference] tests a pair (condition,
    message), which is true whatever the condition: taken alone it lets
    any lists of columns through, also a pair with
    [left_column_index >= right_column_index], where the condition itself
    is false.  The loop above it never builds such lists. *)
Lemma inference_assert_tuple :
  torch_all_lt
    [ {| row_index := 0; left_column_index := 3; right_column_index := 2 |} ]
    = false
  ∧ ∀ requests, inference_assert requests = Ok tt.
Proof. split; [done|]. by intros requests. Qed.

(** ** The first indices of the spans of a row *)

Lemma chain_starts r i e cs : ∀ a,
  span_start <$> zip_with (mk_span r i) (a :: cs) (cs ++ [e]) = a :: cs.
Proof.
  induction cs as [|c cs IH]; intros a; [done|].
  change (zip_with (mk_span r i) (a :: c :: cs) ((c :: cs) ++ [e]))
    with (mk_span r i a c :: zip_with (mk_span r i) (c :: cs) (cs ++ [e])).
  by rewrite fmap_cons, IH.
Qed.

Lemma segments_starts r i :
  span_start <$> segments r i
  = filter (λ j, begins_span (tag_preds r) j = true)
      (seq 1 (Z.to_nat (len_context r - 2))).
Proof.
  unfold segments, spans_by, starts_by.
  destruct (filter _ _) as [|a cs]; [done|]. apply chain_starts.
Qed.

Lemma segments_start_in r i x :
  x ∈ segments r i →
  (1 ≤ span_start x ≤ Z.to_nat (len_context r - 2))%nat.
Proof.
  intros Hx. apply (list_elem_of_fmap_2 span_start) in Hx.
  rewrite segments_starts in Hx.
  apply list_elem_of_filter in Hx as [_ Hx].
  apply elem_of_seq in Hx. lia.
Qed.

(** ** The two walks cut a well-formed batch alike *)

(** C1 (amended).  Let the four labels be pairwise distinct and the two
    markers differ, and let every row of the batch be well formed: a valid
    length of 2 at least and of the length of the row of tags at most, the
    start marker at index 0, the end marker at index [len_context - 1],
    neither marker at an index in between, and one of the four labels on
    every token in between.  If moreover the example ids are pairwise
    distinct, the rewrite spans of the walk of [assemble_output] are, in
    order, the entries [inference] registers: same row, left column
    [start - 1], right column [end].  Given one decoder output per entry,
    [assemble_output] succeeds and its counter ends on their number, so
    the k-th rewrite span takes the k-th output. *)
Theorem span_walks_agree batch :
  labels_ok = true →
  forallb well_formed batch = true →
  distinct_ids batch = true →
  ∃ t,
    assemble_spans batch = Ok t
    ∧ lr_of_span <$> rewrite_spans t = inference_spans batch
    ∧ ∀ seq_preds,
        length seq_preds = length (inference_spans batch) →
        ∃ preds,
          assemble_loop (Some seq_preds) batch
          = Ok (preds, length seq_preds).
Proof.
  intros Hlabels Hwf Hids. apply bool_decide_eq_true in Hids.
  exists (batch_segments batch 0 []).
  pose proof (assemble_spans_segments Hlabels batch Hwf) as Ht.
  assert (lr_of_span <$> rewrite_spans (batch_segments batch 0 [])
          = inference_spans batch) as Heq.
  { rewrite (batch_segments_distinct Hlabels);
      [done|by apply forallb_Forall|done|].
    intros r _. simpl. apply not_elem_of_nil. }
  split_and!; [done..|].
  intros seq_preds Hlen.
  rewrite (assemble_loop_replay _ _ _ Ht).
  rewrite <- Heq, length_fmap in Hlen. rewrite Hlen.
  apply (run_spans_enough seq_preds _ ∅ 0). simpl. lia.
Qed.

(** C6 (amended).  On a well-formed row both walks begin a span at index 1,
    at every token carrying a start label (O-I or B-I), also when the token
    before has the same category, and at every token whose category differs
    from that of the token before; a token carrying O-M or B-M after a
    token of its own category stays in the open span.  Each span runs to
    the first index of the next one, the last to index [len_context - 1].
    [assemble_output] cuts the row into exactly these spans, and
    [inference] registers exactly those of them that are rewrite spans;
    their first indices are the indices the rule selects, and each span
    has the category of the label at its first index. *)
Theorem spans_begin_by_rule r :
  labels_ok = true →
  well_formed r = true →
  assemble_spans [r] = Ok (segments r 0)
  ∧ inference_spans [r] = lr_of_span <$> rewrite_spans (segments r 0)
  ∧ span_start <$> segments r 0
    = filter (λ j, begins_span (tag_preds r) j = true)
        (seq 1 (Z.to_nat (len_context r - 2)))
  ∧ Forall (λ x, tag_preds r !! span_start x ≫= (Some ∘ category)
                 = Some (span_cat x)) (segments r 0).
Proof.
  intros Hlabels Hwf. split_and!.
  - rewrite (assemble_spans_segments Hlabels); [done|].
    simpl. by rewrite Hwf.
  - unfold inference_spans. simpl.
    by apply inference_tokens_segments.
  - apply segments_starts.
  - destruct (well_formed_inv r Hwf) as (_ & _ & _ & Htags & _).
    apply Forall_forall. intros x Hx.
    pose proof (segments_start_in r 0 x Hx) as Hin.
    unfold segments, spans_by in Hx.
    apply elem_of_zip_with in Hx as (a & b & -> & Ha & _). simpl in *.
    destruct (lookup_lt_is_Some_2 (tag_preds r) a) as [tag Htag]; [lia|].
    by rewrite Htag.
Qed.

(** ** Where the spans of a well-formed row lie *)

Lemma chain_within r i e (P : nat → Prop) `{∀ j, Decision (P j)} m :
  ∀ j a, (a < j)%nat → (j + m = e)%nat →
  Forall (within a e)
    (zip_with (mk_span r i) (a :: filter P (seq j m))
       (filter P (seq j m) ++ [e])).
Proof.
  induction m as [|m IH]; intros j a Ha Hj; simpl.
  { apply Forall_singleton. unfold within; simpl. lia. }
  rewrite filter_cons. case_decide; [|apply IH; lia].
  simpl. constructor; [unfold within; simpl; lia|].
  eapply Forall_impl; [apply (IH (S j) j); lia|].
  unfold within. intros x. lia.
Qed.

Lemma spans_within r i e (P : nat → Prop) `{∀ j, Decision (P j)} m :
  ∀ j, (1 ≤ j)%nat → (j + m = e)%nat →
  Forall (within 1 e)
    (zip_with (mk_span r i) (filter P (seq j m))
       (tail (filter P (seq j m)) ++ [e])).
Proof.
  induction m as [|m IH]; intros j Hj He; simpl; [done|].
  rewrite filter_cons. case_decide; [|apply IH; lia].
  cbn [tail]. eapply Forall_impl; [apply (chain_within _ _ e); lia|].
  unfold within. intros x. lia.
Qed.

Lemma chain_last_end r i e cs : ∀ a x,
  last (zip_with (mk_span r i) (a :: cs) (cs ++ [e])) = Some x →
  span_end x = e.
Proof.
  induction cs as [|c cs IH]; intros a x.
  { simpl. by intros [= <-]. }
  change (zip_with (mk_span r i) (a :: c :: cs) ((c :: cs) ++ [e]))
    with (mk_span r i a c
          :: zip_with (mk_span r i) (c :: cs) (cs ++ [e])).
  destruct (zip_with (mk_span r i) (c :: cs) (cs ++ [e])) as [|y l] eqn:Hz.
  { by destruct cs. }
  intros Hl. apply (IH c). rewrite Hz. exact Hl.
Qed.

Lemma segments_within r i :
  (2 ≤ len_context r) →
  Forall (within 1 (Z.to_nat (len_context r - 1))) (segments r i).
Proof.
  intros Hlen. unfold segments, spans_by, starts_by.
  apply spans_within; lia.
Qed.

Lemma segments_last_end r i x :
  last (segments r i) = Some x → span_end x = Z.to_nat (len_context r - 1).
Proof.
  unfold segments, spans_by.
  destruct (starts_by begins_span r) as [|a cs]; [done|].
  apply chain_last_end.
Qed.

Lemma segments_nonempty r i :
  2 < len_context r → ∃ x, last (segments r i) = Some x.
Proof.
  intros Hlen. apply last_is_Some. unfold segments, spans_by, starts_by.
  destruct (Z.to_nat (len_context r - 2)) as [|m] eqn:Hm; [lia|].
  cbn [seq]. rewrite filter_cons_True by done. cbn [tail].
  by destruct (filter _ (seq 2 m)).
Qed.

Lemma last_filter {X} (P : X → Prop) `{∀ x, Decision (P x)} l x :
  last l = Some x → P x → last (filter P l) = Some x.
Proof.
  intros [l' ->]%last_Some Hx.
  by rewrite filter_app, filter_cons_True, filter_nil, last_snoc.
Qed.

Lemma closure_point_well_formed r :
  labels_ok = true → well_formed r = true →
  closure_point r = Z.to_nat (len_context r - 1).
Proof.
  intros Hlabels Hwf.
  destruct (well_formed_inv r Hwf) as (Hlen & Hbos & Heos & _ & Hbody).
  pose proof (labels_distinct Hlabels) as (_ & _ & _ & _ & _ & _ & Hmark).
  unfold closure_point.
  assert (list_find (λ c, c = eos_id tokenizer_context)
            (take (Z.to_nat (len_context r)) (context_ids r))
          = Some (Z.to_nat (len_context r - 1), eos_id tokenizer_context))
    as ->; [|done].
  apply list_find_Some.
  replace (Z.to_nat (len_context r - 1))
    with (S (Z.to_nat (len_context r - 2))) by lia.
  split_and!; [by rewrite lookup_take_lt by lia|done|].
  intros j y Hj Hlt. rewrite lookup_take_lt in Hj by lia.
  destruct j as [|j]; [congruence|].
  destruct (Hbody (S j)) as (c & tag & Hc & Hp & _); [lia|].
  apply bool_decide_eq_true in Hp as [_ Hp]. congruence.
Qed.

(** C2 (amended).  On a well-formed row, where the end marker stands first
    at index [len_context - 1], both walks stop at that index: every span
    of [assemble_output] and every entry of [inference] lies between index
    1 and that index; when there is a token between the markers the last
    span of [assemble_output] ends exactly there; and when that last span
    is a rewrite span, it is the last entry [inference] registers, with
    that index as its right column. *)
Theorem scan_stops_at_end_marker r :
  labels_ok = true →
  well_formed r = true →
  closure_point r = Z.to_nat (len_context r - 1)
  ∧ ∃ t,
      assemble_spans [r] = Ok t
      ∧ Forall (within 1 (closure_point r)) t
      ∧ Forall (λ q, 0 ≤ left_column_index q < right_column_index q
                     ∧ right_column_index q ≤ Z.of_nat (closure_point r))
          (inference_spans [r])
      ∧ (2 < len_context r →
           ∃ x, last t = Some x ∧ span_end x = closure_point r)
      ∧ (∀ x, last t = Some x → span_cat x = B →
           last (inference_spans [r]) = Some (lr_of_span x)).
Proof.
  intros Hlabels Hwf.
  pose proof (closure_point_well_formed r Hlabels Hwf) as Hc.
  destruct (well_formed_inv r Hwf) as (Hlen & _).
  split; [done|]. exists (segments r 0). rewrite Hc.
  assert (assemble_spans [r] = Ok (segments r 0)) as Ht.
  { rewrite (assemble_spans_segments Hlabels); [done|].
    simpl. by rewrite Hwf. }
  assert (inference_spans [r]
          = lr_of_span <$> rewrite_spans (segments r 0)) as He.
  { unfold inference_spans. simpl. by apply inference_tokens_segments. }
  pose proof (segments_within r 0 ltac:(lia)) as Hin.
  split_and!; [done|done| | |].
  - rewrite He. apply Forall_fmap, Forall_forall.
    intros x [_ Hx]%list_elem_of_filter.
    rewrite Forall_forall in Hin.
    destruct (Hin x Hx) as (Ha & Hb & He'). unfold lr_of_span; simpl. lia.
  - intros Hlen'. destruct (segments_nonempty r 0 Hlen') as [x Hx].
    exists x. split; [done|]. by apply segments_last_end in Hx.
  - intros x Hx HB. rewrite He, fmap_last.
    unfold rewrite_spans. by rewrite (last_filter _ _ _ Hx HB).
Qed.

(** ** The fragments of a batch of well-formed rows *)

Lemma run_spans_covers seq_preds t preds :
  covers seq_preds (length (rewrite_spans t)) = true →
  ∃ preds', run_spans seq_preds t (preds, 0%nat)
            = Ok (preds', length (rewrite_spans t)).
Proof.
  destruct seq_preds as [l|]; simpl; intros Hc.
  - apply Nat.leb_le in Hc. by apply (run_spans_enough l t preds 0).
  - apply Nat.eqb_eq in Hc. rewrite Hc.
    rewrite run_spans_verbatim by by apply nil_length_inv. by eexists.
Qed.

Lemma filter_segments r i k :
  filter (λ x, span_example x = k) (segments r i)
  = if decide (example_id r = k) then segments r i else [].
Proof.
  pose proof (segments_of r i) as Hof.
  induction (segments r i) as [|x l IH]; [by case_decide|].
  rewrite filter_cons, IH by (intros y Hy; apply Hof; by right).
  unfold span_example. rewrite (Hof x) by left.
  by repeat case_decide.
Qed.

Lemma batch_segments_filter_other rows k :
  (∀ r, r ∈ rows → example_id r ≠ k) →
  ∀ i t,
    filter (λ x, span_example x = k) (batch_segments rows i t)
    = filter (λ x, span_example x = k) t.
Proof.
  induction rows as [|r rows IH]; intros Hk i t; simpl; [done|].
  rewrite IH by (intros r' Hr'; apply Hk; by right).
  case_match; [done|].
  rewrite filter_app, filter_segments, decide_False, app_nil_r;
    [done|apply Hk; left].
Qed.

Lemma filter_absent t k :
  k ∉ span_example <$> t → filter (λ x, span_example x = k) t = [].
Proof.
  induction t as [|x t IH]; [done|].
  rewrite fmap_cons, not_elem_of_cons. intros [Hx Ht].
  by rewrite filter_cons_False, IH by done.
Qed.

Lemma batch_segments_filter rows :
  NoDup (example_id <$> rows) →
  ∀ i t k r,
    rows !! k = Some r →
    (∀ r', r' ∈ rows → example_id r' ∉ span_example <$> t) →
    filter (λ x, span_example x = example_id r) (batch_segments rows i t)
    = segments r (i + k).
Proof.
  induction rows as [|r0 rows IH]; intros Hnd i t k r Hk Ht; [done|].
  rewrite fmap_cons, NoDup_cons in Hnd. destruct Hnd as [Hr0 Hnd].
  assert (∀ r', r' ∈ rows → example_id r' ≠ example_id r0) as Hne.
  { intros r' Hr' Heq. apply Hr0. rewrite <- Heq.
    by apply list_elem_of_fmap_2. }
  cbn [batch_segments].
  rewrite (proj2 (span_present_false _ _)) by (apply Ht; left).
  destruct k as [|k]; simpl in Hk.
  - simplify_eq. rewrite batch_segments_filter_other by done.
    rewrite filter_app, filter_segments, decide_True by done.
    rewrite filter_absent by (apply Ht; left).
    by rewrite Nat.add_0_r.
  - replace (i + S k)%nat with (S i + k)%nat by lia.
    apply IH; [done..|].
    intros r' Hr'. rewrite fmap_app, not_elem_of_app. split.
    + apply Ht. by right.
    + intros Hin%segments_examples. by apply (Hne r').
Qed.

(** C7 (amended).  On a batch of well-formed rows with pairwise distinct
    example ids for which [inference] registers no span, [inference]
    returns before the sequence model is called, with [None] for the
    decoder outputs, and [assemble_output] succeeds on that [None]: the
    fragments of every example are the texts of the spans its row is cut
    into, which are runs of plain tokens that end before every token
    labelled O-I (so a run of plain tokens with an O-I inside gives several
    fragments). *)
Theorem no_request_batch max_output_length batch :
  labels_ok = true →
  forallb well_formed batch = true →
  distinct_ids batch = true →
  inference_spans batch = [] →
  inference max_output_length batch
    = Ok {| input_ids := None; seq_preds := None; requests := [];
            seq2seq_calls := 0 |}
  ∧ ∃ preds,
      assemble_output None batch = Ok preds
      ∧ ∀ i r, batch !! i = Some r →
          fragments preds (example_id r) = verbatim <$> segments r i.
Proof.
  intros Hlabels Hwf Hids Hreq. apply bool_decide_eq_true in Hids.
  split; [unfold inference; by rewrite Hreq|].
  pose proof (assemble_spans_segments Hlabels batch Hwf) as Ht.
  assert (rewrite_spans (batch_segments batch 0 []) = []) as Hrw.
  { eapply fmap_nil_inv. rewrite (batch_segments_distinct Hlabels);
      [done|by apply forallb_Forall|done|].
    intros r _. apply not_elem_of_nil. }
  unfold assemble_output.
  rewrite (assemble_loop_replay _ _ _ Ht), run_spans_verbatim by done.
  eexists; split; [done|]. intros i r Hr. simpl.
  rewrite fragments_verbatim.
  rewrite (batch_segments_filter batch Hids 0 [] i r Hr);
    [done|]. intros r' _. apply not_elem_of_nil.
Qed.

(** On a batch of well-formed rows with pairwise distinct example ids and
    a decoder output for every registered span, [assemble_output]
    succeeds, and an example of valid length 2 (the end marker right after
    the start marker, no token between them) gets no entry in the result:
    reading its key gives the empty list. *)
Lemma well_formed_blank_row batch seq_preds i r :
  labels_ok = true →
  forallb well_formed batch = true →
  distinct_ids batch = true →
  covers seq_preds (length (inference_spans batch)) = true →
  batch !! i = Some r →
  len_context r = 2 →
  ∃ preds,
    assemble_output seq_preds batch = Ok preds
    ∧ preds !! example_id r = None
    ∧ fragments preds (example_id r) = [].
Proof.
  intros Hlabels Hwf Hids Hcov Hr Hlen. apply bool_decide_eq_true in Hids.
  pose proof (assemble_spans_segments Hlabels batch Hwf) as Ht.
  assert (length (rewrite_spans (batch_segments batch 0 []))
          = length (inference_spans batch)) as Hrw.
  { rewrite <- (length_fmap lr_of_span).
    rewrite (batch_segments_distinct Hlabels);
      [done|by apply forallb_Forall|done|].
    intros r' _. apply not_elem_of_nil. }
  rewrite <- Hrw in Hcov.
  destruct (run_spans_covers _ _ ∅ Hcov) as [preds Hrun].
  unfold assemble_output, fragments.
  rewrite (assemble_loop_replay _ _ _ Ht), Hrun.
  exists preds.
  assert (preds !! example_id r = None) as Hnone.
  { eapply (run_spans_other _ _ (example_id r)) in Hrun; [done|].
    intros (x & Hx & Hin)%list_elem_of_fmap.
    eapply (filter_nil_not_elem_of (λ x, span_example x = example_id r));
      [|symmetry; exact Hx|exact Hin].
    rewrite (batch_segments_filter batch Hids 0 [] i r Hr)
      by (intros r' _; apply not_elem_of_nil).
    unfold segments, spans_by, starts_by. by rewrite Hlen. }
  by rewrite Hnone.
Qed.

(** ** The boundary example *)

(** C8 (amended).  On the row [BOS the 5 5 dogs EOS] labelled O-I, B-I,
    B-M, O-I between the markers, [inference] registers exactly one span,
    with left column 1 and right column 4 (the columns of "the" and of
    "dogs"), whose tokens are the two "5"; given one decoder output for it,
    [assemble_output] yields the text of "the", the text of that output
    and the text of "dogs". *)
Theorem boundary_example the five dogs t0 t5 id w :
  labels_ok = true →
  plain_id the = true → plain_id five = true → plain_id dogs = true →
  let r := {| example_id := id;
              context_ids := [bos_id tokenizer_context; the; five; five;
                              dogs; eos_id tokenizer_context];
              tag_preds := [t0; O_I tag_labels; B_I tag_labels;
                            B_M tag_labels; O_I tag_labels; t5];
              len_context := 6 |} in
  inference_spans [r]
    = [ {| row_index := 0; left_column_index := 1;
           right_column_index := 4 |} ]
  ∧ slice (context_ids r) 2 4 = [five; five]
  ∧ assemble_output (Some [w]) [r]
    = Ok {[ id := [ ids_to_text tokenizer_context [the];
                    ids_to_text tokenizer_decoder w;
                    ids_to_text tokenizer_context [dogs] ] ]}.
Proof.
  intros Hlabels [Hthe1 Hthe2]%bool_decide_eq_true
    [Hfive1 Hfive2]%bool_decide_eq_true [Hdogs1 Hdogs2]%bool_decide_eq_true r.
  pose proof (labels_distinct Hlabels) as (H1 & H2 & H3 & H4 & H5 & H6 & H7).
  split_and!.
  - unfold inference_spans. simpl.
    repeat first [ rewrite Z.eqb_refl
                 | rewrite (proj2 (Z.eqb_neq _ _)) by congruence ].
    done.
  - done.
  - unfold assemble_output, assemble_loop, assemble_rows, assemble_example.
    unfold preds_present. simpl. rewrite lookup_empty. simpl.
    repeat first [ rewrite Z.eqb_refl
                 | rewrite (proj2 (Z.eqb_neq _ _)) by congruence ].
    simpl. unfold preds_append.
    rewrite lookup_empty, lookup_insert_eq. simpl.
    rewrite lookup_insert_eq. simpl.
    by rewrite !insert_insert_eq, insert_empty.
Qed.

(** ** An example id presented twice *)

Lemma assemble_tokens_row_index sp r i i' tags :
  ∀ j prev_tag start_index jv s,
  assemble_tokens (decode sp) r i tags j prev_tag start_index jv s
  = assemble_tokens (decode sp) r i' tags j prev_tag start_index jv s.
Proof.
  induction tags as [|tag tags IH]; intros j p st jv s; simpl; [done|].
  destruct (context_ids r !! j); [|done].
  repeat case_match; try done; try apply IH;
    match goal with
    | |- context [decode sp r ?p0 i' st j s] =>
        change (decode sp r p0 i' st j s) with (decode sp r p0 i st j s);
        destruct (decode sp r p0 i st j s); simpl; [apply IH|done]
    end.
Qed.

Lemma assemble_rows_row_index sp rows :
  ∀ i i' jv s,
  assemble_rows preds_present (decode sp) rows i jv s
  = assemble_rows preds_present (decode sp) rows i' jv s.
Proof.
  induction rows as [|r rows IH]; intros i i' jv s; simpl; [done|].
  unfold assemble_example.
  rewrite (assemble_tokens_row_index sp r i i').
  destruct (preds_present _ s); simpl; [apply IH|].
  destruct (assemble_tokens _ _ _ _ _ _ _ _ _) as [[[[p st] [j|]] s1]|];
    simpl; try done.
  change (decode sp r p i' st j s1) with (decode sp r p i st j s1).
  destruct (decode sp r p i st j s1); simpl; [apply IH|done].
Qed.

Lemma assemble_rows_app {St} (present : Z → St → bool)
    (dec : example → option ptag → nat → nat → nat → St → res St) rows1 :
  ∀ rows2 i jv s,
  assemble_rows present dec (rows1 ++ rows2) i jv s
  = (assemble_rows present dec rows1 i jv s
     ≫= λ '(jv', s'),
          assemble_rows present dec rows2 (i + length rows1) jv' s').
Proof.
  induction rows1 as [|r rows1 IH]; intros rows2 i jv s; simpl.
  { by rewrite Nat.add_0_r. }
  destruct (assemble_example present dec r i jv s) as [[jv1 s1]|]; simpl;
    [|done].
  rewrite IH. by replace (S i + length rows1)%nat
                   with (i + S (length rows1))%nat by lia.
Qed.

(** C3 (amended).  Within one call of [assemble_output], a row whose
    example id has an entry in [preds] already is ignored in full: after
    it [preds] and the counter are what they were, and the call returns
    what it returns on the batch without that row.  Across calls nothing
    is remembered: [infer] assembles every batch from an empty [preds] and
    merges the result with [update], so that an entry of a later batch
    replaces the entry the accumulated predictions have under the same
    example id. *)
Theorem duplicate_example_id sp pre r post preds n max_output_length
    all_preds batch all_preds' :
  assemble_loop sp pre = Ok (preds, n) →
  preds_present (example_id r) (preds, n) = true →
  infer_batch max_output_length all_preds batch = Ok all_preds' →
  assemble_loop sp (pre ++ [r]) = Ok (preds, n)
  ∧ assemble_loop sp (pre ++ r :: post)
    = assemble_loop sp (pre ++ post)
  ∧ ∃ out preds',
      inference max_output_length batch = Ok out
      ∧ assemble_output (seq_preds out) batch = Ok preds'
      ∧ ∀ k, all_preds' !! k
             = match preds' !! k with
               | Some l => Some l
               | None => all_preds !! k
               end.
Proof.
  unfold assemble_loop. intros Hpre Hr Hinfer.
  destruct (assemble_rows _ _ pre _ _ _) as [[jv1 s1]|] eqn:Hrows;
    [|done].
  simpl in Hpre. simplify_eq.
  assert (∀ post,
            assemble_rows preds_present (decode sp)
              (pre ++ r :: post) 0 None (∅, 0%nat)
            = assemble_rows preds_present (decode sp)
                (pre ++ post) 0 None (∅, 0%nat)) as Hskip.
  { intros post'. rewrite !assemble_rows_app, Hrows. simpl.
    unfold assemble_example. rewrite Hr. simpl.
    apply assemble_rows_row_index. }
  split_and!.
  - by rewrite Hskip, app_nil_r, Hrows.
  - by rewrite Hskip.
  - unfold infer_batch in Hinfer.
    destruct (inference _ batch) as [out|]; [|done]. simpl in Hinfer.
    destruct (assemble_output _ batch) as [preds'|] eqn:Hout; [|done].
    simpl in Hinfer. simplify_eq.
    exists out, preds'. split_and!; [done..|].
    intros k. unfold dict_update. rewrite lookup_union.
    by destruct (preds' !! k), (all_preds !! k).
Qed.

(** ** A row skipped inside a batch *)

Lemma inference_tokens_length i i' len_i tags :
  ∀ j prev_tag start_index acc acc',
  length acc = length acc' →
  length (inference_tokens i len_i tags j prev_tag start_index acc)
  = length (inference_tokens i' len_i tags j prev_tag start_index acc').
Proof.
  assert (∀ p st j acc acc', length acc = length acc' →
            length (register_lr p i st j acc)
            = length (register_lr p i' st j acc')) as Hreg.
  { intros [c|] st j acc acc' Hacc; simpl; [|done].
    rewrite !length_app. simpl. lia. }
  induction tags as [|tag tags IH]; intros j p st acc acc' Hacc; simpl;
    [done|].
  repeat case_match; auto.
Qed.

Lemma inference_rows_app rows1 : ∀ rows2 i,
  inference_rows (rows1 ++ rows2) i []
  = inference_rows rows1 i []
    ++ inference_rows rows2 (i + length rows1) [].
Proof.
  induction rows1 as [|r rows1 IH]; intros rows2 i.
  { simpl. by rewrite Nat.add_0_r. }
  rewrite <- app_comm_cons, !inference_rows_cons, IH, <- app_assoc.
  by replace (S i + length rows1)%nat
       with (i + length (r :: rows1))%nat by (simpl; lia).
Qed.

Lemma batch_segments_count rows :
  labels_ok = true →
  Forall (λ r, well_formed r = true) rows →
  ∀ i t,
    (length (rewrite_spans (batch_segments rows i t))
     ≤ length (rewrite_spans t) + length (inference_rows rows i []))%nat.
Proof.
  intros Hlabels. induction 1 as [|r rows Hr _ IH]; intros i t.
  { simpl. lia. }
  cbn [batch_segments]. rewrite inference_rows_cons, length_app.
  rewrite (inference_tokens_segments Hlabels r i Hr), length_fmap.
  destruct (span_present (example_id r) t).
  - specialize (IH (S i) t). lia.
  - specialize (IH (S i) (t ++ segments r i)).
    rewrite rewrite_spans_app, length_app in IH. lia.
Qed.

Lemma batch_segments_skip rows :
  labels_ok = true →
  Forall (λ r, well_formed r = true) rows →
  ∀ i t k r2,
    rows !! k = Some r2 →
    inference_spans [r2] ≠ [] →
    (example_id r2 ∈ span_example <$> t
     ∨ ∃ k1 r1, (k1 < k)%nat ∧ rows !! k1 = Some r1
                ∧ example_id r1 = example_id r2 ∧ 2 < len_context r1) →
    (length (rewrite_spans (batch_segments rows i t))
     < length (rewrite_spans t) + length (inference_rows rows i []))%nat.
Proof.
  intros Hlabels. induction 1 as [|r rows Hr Hrows IH];
    intros i t k r2 Hk Hreq Hseen; [done|].
  cbn [batch_segments]. rewrite inference_rows_cons, length_app.
  rewrite (inference_tokens_segments Hlabels r i Hr), length_fmap.
  destruct k as [|k]; simpl in Hk.
  - simplify_eq. destruct Hseen as [Hin|(k1 & r1 & Hlt & _)]; [|lia].
    rewrite (bool_decide_eq_true_2 _ Hin : span_present _ _ = true).
    pose proof (batch_segments_count rows Hlabels Hrows (S i) t) as Hc.
    assert (0 < length (rewrite_spans (segments r2 i)))%nat; [|lia].
    rewrite <- (length_fmap lr_of_span),
      <- (inference_tokens_segments Hlabels r2 i Hr).
    rewrite (inference_tokens_length i 0 _ _ _ _ _ [] []) by done.
    unfold inference_spans in Hreq. simpl in Hreq.
    destruct (inference_tokens 0 _ _ _ _ _ _); [done|simpl; lia].
  - match goal with
    | |- context [batch_segments rows (S i) ?t'] =>
        specialize (IH (S i) t' k r2 Hk Hreq);
        assert (length (rewrite_spans t')
                ≤ length (rewrite_spans t)
                  + length (rewrite_spans (segments r i)))%nat as Ht'
    end.
    { case_match; [lia|]. rewrite rewrite_spans_app, length_app. lia. }
    cut (example_id r2 ∈ span_example
           <$> (if span_present (example_id r) t then t
                else t ++ segments r i)
         ∨ ∃ k1 r1, (k1 < k)%nat ∧ rows !! k1 = Some r1
                    ∧ example_id r1 = example_id r2 ∧ 2 < len_context r1).
    { intros Hseen'. specialize (IH Hseen'). lia. }
    destruct Hseen as [Hin|(k1 & r1 & Hlt & Hk1 & Hid & Hlen)].
    + left. case_match; [done|]. rewrite fmap_app, elem_of_app. by left.
    + destruct k1 as [|k1]; simpl in Hk1.
      * simplify_eq. left. rewrite <- Hid.
        destruct (span_present (example_id r1) t) eqn:Hp.
        { by apply bool_decide_eq_true in Hp. }
        rewrite fmap_app, elem_of_app. right.
        destruct (segments_nonempty r1 i Hlen) as [x Hx].
        apply last_Some_elem_of in Hx.
        apply list_elem_of_fmap. exists x. split; [|done].
        unfold span_example. by rewrite (segments_of _ _ _ Hx).
      * right. exists k1, r1. split_and!; [lia|done..].
Qed.

(** C10 (amended).  In a batch of well-formed rows let row [i2] carry the
    example id of an earlier row [i1] that has a token between its markers
    (so that the example id has an entry when row [i2] is reached), and let
    row [i2] contain a rewrite span.  [inference] registers the spans of
    every row, those of row [i2] among them; [assemble_output], given one
    decoder output per registered span, succeeds, and its counter ends
    strictly below the number of registered spans. *)
Theorem duplicate_row_in_batch batch i1 i2 r1 r2 sp :
  labels_ok = true →
  forallb well_formed batch = true →
  batch !! i1 = Some r1 →
  batch !! i2 = Some r2 →
  (i1 < i2)%nat →
  example_id r1 = example_id r2 →
  2 < len_context r1 →
  inference_spans [r2] ≠ [] →
  length sp = length (inference_spans batch) →
  (∃ before after,
     inference_spans batch
     = before
       ++ inference_tokens i2 (len_context r2) (tag_preds r2) 0 None 0 []
       ++ after)
  ∧ ∃ preds n,
      assemble_loop (Some sp) batch = Ok (preds, n)
      ∧ (n < length (inference_spans batch))%nat.
Proof.
  intros Hlabels Hwf H1 H2 Hlt Hid Hlen Hreq Hsp. split.
  - exists (inference_rows (take i2 batch) 0 []),
           (inference_rows (drop (S i2) batch) (S i2) []).
    unfold inference_spans.
    rewrite <- (take_drop_middle _ _ _ H2) at 1.
    rewrite inference_rows_app, inference_rows_cons.
    rewrite length_take_le by (apply lookup_lt_Some in H2; lia).
    done.
  - pose proof (assemble_spans_segments Hlabels batch Hwf) as Ht.
    apply forallb_Forall in Hwf.
    pose proof (batch_segments_skip batch Hlabels Hwf 0 [] i2 r2 H2 Hreq)
      as Hskip.
    simpl in Hskip. fold (inference_spans batch) in Hskip.
    rewrite (assemble_loop_replay _ _ _ Ht).
    destruct (run_spans_enough sp (batch_segments batch 0 []) ∅ 0)
      as [preds Hrun].
    + simpl. rewrite Hsp. apply Nat.lt_le_incl, Hskip.
      right. by exists i1, r1.
    + exists preds, (length (rewrite_spans (batch_segments batch 0 []))).
      split; [done|]. apply Hskip. right. by exists i1, r1.
Qed.

(** * Further properties of the two walks *)

(** ** What [inference] registers on any batch *)

Lemma inference_tokens_Forall (Q : lr → Prop) i len_i tags :
  ∀ j prev_tag start_index acc,
  (∀ st' j', (1 ≤ st' < j')%nat → Z.of_nat j' ≤ len_i - 1 →
             (j ≤ j' < j + length tags)%nat →
             Q {| row_index := i; left_column_index := Z.of_nat st' - 1;
                  right_column_index := Z.of_nat j' |}) →
  (is_Some prev_tag →
     (1 ≤ start_index < j)%nat ∧ Z.of_nat j ≤ len_i - 1) →
  Forall Q acc →
  Forall Q (inference_tokens i len_i tags j prev_tag start_index acc).
Proof.
  induction tags as [|tag tags IH]; intros j p st acc HQ Hinv Hacc; simpl;
    [done|].
  assert (Forall Q (register_lr p i st j acc)) as Hreg.
  { destruct p as [c|]; simpl; [|done].
    apply Forall_app; split; [done|]. apply Forall_singleton.
    destruct Hinv as [Hst Hj]; [done|]. apply HQ; simpl; lia. }
  assert (∀ st' j', (1 ≤ st' < j')%nat → Z.of_nat j' ≤ len_i - 1 →
            (S j ≤ j' < S j + length tags)%nat →
            Q {| row_index := i; left_column_index := Z.of_nat st' - 1;
                 right_column_index := Z.of_nat j' |}) as HQ'.
  { intros st' j' Hst' Hj' Hr. apply HQ; simpl; lia. }
  destruct (Nat.eqb_spec j 0) as [->|Hj0].
  { apply IH; [done| |done]. intros Hp. destruct (Hinv Hp). lia. }
  destruct (Z.geb_spec (Z.of_nat j) (len_i - 1)) as [|Hlt]; [done|].
  repeat case_match; subst; apply IH; try done;
    first [ by intros [] | intros Hp; try destruct (Hinv Hp); lia ].
Qed.

Lemma inference_rows_in_range batch rows : ∀ i acc,
  (∀ k r, rows !! k = Some r → batch !! (i + k)%nat = Some r) →
  Forall (in_range batch) acc →
  Forall (in_range batch) (inference_rows rows i acc).
Proof.
  induction rows as [|r rows IH]; intros i acc Hrows Hacc; simpl; [done|].
  apply IH.
  - intros k r' Hk. replace (S i + k)%nat with (i + S k)%nat by lia.
    by apply Hrows.
  - apply inference_tokens_Forall; [|by intros []|done].
    intros st' j' Hst Hj Hr. exists r. simpl.
    split; [|lia]. rewrite <- (Nat.add_0_r i). by apply Hrows.
Qed.

(** X1.  On any batch, every entry [inference] registers points into its
    row: the row exists, the left column is at least 0 (so that no index
    wraps around), there is at least one column between the left and the
    right one, and the right column is at most the index of the last valid
    token and inside the row of tags. *)
Theorem inference_spans_in_range batch :
  Forall (in_range batch) (inference_spans batch).
Proof.
  apply inference_rows_in_range; [|done]. by intros k r.
Qed.

Lemma adjacent_snoc {X} (R : X → X → Prop) l y :
  adjacent R l → (∀ x, last l = Some x → R x y) → adjacent R (l ++ [y]).
Proof.
  intros Hl Hlast k x z Hk HSk.
  destruct (decide (S k < length l)%nat) as [Hlt|Hge].
  - rewrite lookup_app_l in Hk, HSk by lia. by eapply Hl.
  - rewrite lookup_app_r in HSk by lia.
    apply list_lookup_singleton_Some in HSk as [Hk0 <-].
    apply Hlast. rewrite last_lookup.
    rewrite lookup_app_l in Hk by lia.
    by replace (pred (length l)) with k by lia.
Qed.

Lemma inference_tokens_adjacent i len_i tags : ∀ j prev_tag start_index acc,
  adjacent lr_before acc →
  (∀ q, last acc = Some q →
        (row_index q < i)%nat
        ∨ (row_index q = i
           ∧ right_column_index q
             ≤ Z.of_nat (if prev_tag is Some _ then start_index else j))) →
  adjacent lr_before
    (inference_tokens i len_i tags j prev_tag start_index acc)
  ∧ ∀ q, last (inference_tokens i len_i tags j prev_tag start_index acc)
         = Some q → (row_index q ≤ i)%nat.
Proof.
  induction tags as [|tag tags IH]; intros j p st acc Hacc Hlast; simpl.
  { split; [done|]. intros q Hq. destruct (Hlast q Hq); lia. }
  assert (adjacent lr_before (register_lr p i st j acc)
          ∧ ∀ q, last (register_lr p i st j acc) = Some q →
                 (row_index q < i)%nat
                 ∨ (row_index q = i ∧ right_column_index q ≤ Z.of_nat j))
    as [Hreg Hreg'].
  { destruct p as [c|]; simpl; [|done]. split.
    - apply adjacent_snoc; [done|]. intros q Hq. unfold lr_before. simpl.
      destruct (Hlast q Hq) as [?|[? ?]]; [by left|right; lia].
    - intros q. rewrite last_snoc. intros [= <-]. simpl. right. lia. }
  assert (∀ q, last (register_lr p i st j acc) = Some q →
               (row_index q ≤ i)%nat) as Hle.
  { intros q Hq. destruct (Hreg' q Hq); lia. }
  destruct (Nat.eqb_spec j 0) as [->|Hj0].
  { apply IH; [done|]. intros q Hq.
    destruct (Hlast q Hq) as [?|[? ?]]; [by left|right].
    split; [done|]. destruct p; lia. }
  destruct (Z.geb_spec (Z.of_nat j) (len_i - 1)) as [|Hlt]; [done|].
  repeat case_match; subst; apply IH; try done;
    intros q Hq;
    first [ destruct (Hreg' q Hq) as [?|[? ?]]; [by left|right; lia]
          | destruct (Hlast q Hq) as [?|[? ?]]; [by left|right; lia] ].
Qed.

(** X2.  On any batch, the entries [inference] registers are in reading
    order: of two neighbours, the first is in an earlier row, or in the
    same row with its right column at most one past the left column of the
    second, so that the spans of a row do not overlap. *)
Theorem inference_spans_in_order batch :
  adjacent lr_before (inference_spans batch).
Proof.
  unfold inference_spans.
  cut (∀ rows i acc,
         adjacent lr_before acc →
         (∀ q, last acc = Some q → (row_index q < i)%nat) →
         adjacent lr_before (inference_rows rows i acc)).
  { intros Hcut. apply Hcut; [by intros k x y|done]. }
  induction rows as [|r rows IH]; intros i acc Hacc Hlast; simpl; [done|].
  destruct (inference_tokens_adjacent i (len_context r) (tag_preds r) 0
              None 0 acc Hacc) as [Hadj Hle].
  { intros q Hq. left. by apply Hlast. }
  apply IH; [done|]. intros q Hq. specialize (Hle q Hq). lia.
Qed.

Lemma inference_tokens_ext i len_i tags : ∀ tags' j prev_tag start_index acc,
  length tags = length tags' →
  (∀ k, (1 ≤ j + k)%nat → Z.of_nat (j + k) < len_i - 1 →
        tags !! k = tags' !! k) →
  inference_tokens i len_i tags j prev_tag start_index acc
  = inference_tokens i len_i tags' j prev_tag start_index acc.
Proof.
  induction tags as [|tag tags IH]; intros [|tag' tags'] j p st acc Hlen Hext;
    try done.
  simpl in Hlen.
  assert (∀ k, (1 ≤ S j + k)%nat → Z.of_nat (S j + k) < len_i - 1 →
               tags !! k = tags' !! k) as Hext'.
  { intros k H1 H2. apply (Hext (S k)); lia. }
  simpl. destruct (Nat.eqb_spec j 0) as [->|Hj0]; [apply IH; [lia|done]|].
  destruct (Z.geb_spec (Z.of_nat j) (len_i - 1)) as [|Hlt]; [done|].
  assert (tag = tag') as <-.
  { specialize (Hext 0%nat). simpl in Hext.
    rewrite Nat.add_0_r in Hext. by injection (Hext ltac:(lia) ltac:(lia)). }
  repeat case_match; apply IH; first [lia|done].
Qed.

(** X3.  The entries [inference] registers for a row depend on the labels
    at the indices from 1 to [len_context - 2] only: the label on the start
    marker, the label on the end marker and the labels on the padding can
    be changed at will, and so can every token id and the example id. *)
Theorem inference_reads_valid_labels pre r r' post :
  len_context r = len_context r' →
  length (tag_preds r) = length (tag_preds r') →
  (∀ j, (1 ≤ j)%nat → Z.of_nat j < len_context r - 1 →
        tag_preds r !! j = tag_preds r' !! j) →
  inference_spans (pre ++ r :: post) = inference_spans (pre ++ r' :: post).
Proof.
  intros Hlen Htags Hext. unfold inference_spans.
  rewrite !inference_rows_app, !inference_rows_cons. do 2 f_equal.
  rewrite <- Hlen. by apply inference_tokens_ext.
Qed.

(** ** [inference] never raises *)

Lemma inference_input_ids_ok batch reqs :
  Forall (in_range batch) reqs →
  ∃ inputs,
    inference_input_ids batch reqs = Ok inputs
    ∧ Forall2
        (λ q l, ∃ r,
           batch !! row_index q = Some r
           ∧ l = bos_id tokenizer_encoder
                 :: text_to_ids tokenizer_encoder
                      (ids_to_text tokenizer_context
                         (slice (context_ids r)
                            (Z.to_nat (left_column_index q + 1))
                            (Z.to_nat (right_column_index q)))))
        reqs inputs.
Proof.
  induction 1 as [|q reqs (r & Hr & _) _ (inputs & Hin & Hall)]; simpl.
  { exists []. by split. }
  rewrite Hr, Hin. simpl. eexists. split; [done|].
  constructor; [|done]. by exists r.
Qed.

Lemma inference_input_ids_length batch reqs inputs :
  inference_input_ids batch reqs = Ok inputs → length inputs = length reqs.
Proof.
  revert inputs. induction reqs as [|q reqs IH]; intros inputs Hin;
    simpl in Hin.
  { by simplify_eq. }
  destruct (batch !! row_index q) as [r|]; [|done].
  destruct (inference_input_ids batch reqs) as [rest|]; [|done].
  simpl in Hin. simplify_eq. simpl. by rewrite (IH rest).
Qed.

(** [inference] unfolded: on any batch the encoder inputs are built without
    error, and the result is read off them. *)
Lemma inference_eq max_output_length batch :
  ∃ inputs,
    inference_input_ids batch (inference_spans batch) = Ok inputs
    ∧ length inputs = length (inference_spans batch)
    ∧ inference max_output_length batch
      = Ok match inputs with
           | [] =>
               {| input_ids := None; seq_preds := None;
                  requests := inference_spans batch; seq2seq_calls := 0 |}
           | _ :: _ =>
               {| input_ids := Some (inference_pad inputs);
                  seq_preds :=
                    Some (seq2seq batch (inference_spans batch)
                            (inference_pad inputs)
                            (replicate (length (inference_pad inputs))
                               [bos_id tokenizer_decoder])
                            (length <$> inputs) max_output_length);
                  requests := inference_spans batch; seq2seq_calls := 1 |}
           end.
Proof.
  destruct (inference_input_ids_ok batch (inference_spans batch))
    as (inputs & Hin & _).
  { apply inference_rows_in_range; [|done]. by intros k r. }
  exists inputs. split_and!; [done|by eapply inference_input_ids_length|].
  unfold inference. rewrite Hin. simpl. by destruct inputs.
Qed.

Lemma inference_pad_length inputs :
  length (inference_pad inputs) = length inputs.
Proof. unfold inference_pad. by rewrite length_fmap. Qed.

Lemma inference_pad_rows inputs :
  Forall2
    (λ x y, y = x ++ replicate (length y - length x)
                      (pad_id tokenizer_encoder)
            ∧ length y = max_list (length <$> inputs))
    inputs (inference_pad inputs).
Proof.
  unfold inference_pad. apply Forall2_fmap_r, Forall_Forall2_diag.
  apply Forall_forall. intros x Hx.
  assert (length x ≤ max_list (length <$> inputs))%nat as Hle.
  { apply max_list_elem_of_le, list_elem_of_fmap. by exists x. }
  unfold np_pad, compose. rewrite length_app, length_replicate. split; [|lia].
  do 2 f_equal. lia.
Qed.


(** X4.  On any batch, the loop of [inference] that registers the spans,
    its assertion and the construction of the encoder inputs raise nothing:
    every registered row exists.  [inference] returns [None] for the
    encoder inputs and the decoder outputs exactly when no span is
    registered.  Otherwise the encoder inputs it returns, and hands to the
    sequence model, form a rectangle with one row per registered span, in
    order: row k is the encoder's start marker, then the encoder ids of
    the text of the tokens of span k, then the encoder's pad id only; the
    width is the length of the longest row before padding, and the
    lengths handed over with the rows are the lengths before padding. *)
Theorem inference_protocol max_output_length batch :
  ∃ out,
    inference max_output_length batch = Ok out
    ∧ requests out = inference_spans batch
    ∧ match inference_spans batch with
      | [] => input_ids out = None ∧ seq_preds out = None
      | _ :: _ =>
          ∃ inputs padded,
            input_ids out = Some padded
            ∧ seq_preds out
              = Some (seq2seq batch (inference_spans batch) padded
                        (replicate (length padded)
                           [bos_id tokenizer_decoder])
                        (length <$> inputs) max_output_length)
            ∧ Forall2
                (λ q x, ∃ r,
                   batch !! row_index q = Some r
                   ∧ x = bos_id tokenizer_encoder
                         :: text_to_ids tokenizer_encoder
                              (ids_to_text tokenizer_context
                                 (slice (context_ids r)
                                    (Z.to_nat (left_column_index q + 1))
                                    (Z.to_nat (right_column_index q)))))
                (inference_spans batch) inputs
            ∧ Forall2
                (λ x y, y = x ++ replicate (length y - length x)
                                  (pad_id tokenizer_encoder)
                        ∧ length y = max_list (length <$> inputs))
                inputs padded
            ∧ max_list (length <$> inputs) ∈ length <$> inputs
      end.
Proof.
  destruct (inference_input_ids_ok batch (inference_spans batch))
    as (inputs & Hin & Hall).
  { apply inference_rows_in_range; [|done]. by intros k r. }
  unfold inference. rewrite Hin. simpl.
  destruct Hall as [|q l reqs inputs Hq Hall]; simpl.
  - eexists. by split_and!.
  - eexists. split_and!; [done..|].
    exists (l :: inputs), (inference_pad (l :: inputs)).
    split_and!; [done|done|by constructor|apply inference_pad_rows|].
    by apply max_list_elem_of.
Qed.

(** ** The spans of [assemble_output] on any batch *)

Lemma res_bind_ret {A X} (a : A) (f : A → res X) : (Ok a ≫= f) = f a.
Proof. done. Qed.

Lemma walk_inv_decode r i prev_tag start_index j t c :
  walk_inv i prev_tag start_index t →
  (is_Some prev_tag → (start_index < j)%nat) →
  walk_inv i (Some c) j (t ++ open_span r prev_tag i start_index j).
Proof.
  intros (Hadj & Hall & Hlast) Hst. destruct prev_tag as [c'|]; simpl.
  - specialize (Hst (mk_is_Some _ _ eq_refl)). split_and!.
    + apply adjacent_snoc; [done|]. intros x Hx. unfold span_before. simpl.
      destruct (Hlast x Hx) as [?|(? & _ & ? & ?)]; [by left|by right].
    + apply Forall_app. split; [done|]. apply Forall_singleton. simpl. lia.
    + intros x. rewrite last_snoc. intros [= <-]. simpl. right.
      split_and!; [done|by eexists|done|done].
  - rewrite app_nil_r. split_and!; [done..|].
    intros x Hx. destruct (Hlast x Hx) as [?|(_ & [? [=]] & _)]. by left.
Qed.

Lemma assemble_tokens_chain r i tags :
  ∀ j prev_tag start_index jv t prev_tag' start_index' jv' t',
  assemble_tokens decode_span r i tags j prev_tag start_index jv t
    = Ok (prev_tag', start_index', jv', t') →
  walk_inv i prev_tag start_index t →
  (is_Some prev_tag →
     (start_index < j)%nat ∧ ∃ jf, jv = Some jf ∧ (start_index ≤ jf)%nat) →
  walk_inv i prev_tag' start_index' t'
  ∧ (is_Some prev_tag' →
       ∃ jf, jv' = Some jf ∧ (start_index' ≤ jf)%nat).
Proof.
  induction tags as [|tag tags IH];
    intros j p st jv t p' st' jv' t' Hw Hinv Hst; simpl in Hw.
  { simplify_eq. split; [done|]. intros Hp. by destruct (Hst Hp). }
  destruct (context_ids r !! j) as [c|]; [|done].
  assert (is_Some p → (st < j)%nat) as Hlt.
  { intros Hp. by destruct (Hst Hp). }
  assert (is_Some p →
            (st < S j)%nat ∧ ∃ jf, Some j = Some jf ∧ (st ≤ jf)%nat) as Hst'.
  { intros Hp. specialize (Hlt Hp). split; [lia|]. exists j. split; [done|lia]. }
  assert (∀ c' : ptag, is_Some (Some c') →
            (j < S j)%nat ∧ ∃ jf, Some j = Some jf ∧ (j ≤ jf)%nat) as Hnew.
  { intros c' _. split; [lia|]. by exists j. }
  repeat case_match; simplify_eq;
    first
      [ (* the end marker *)
        split; [done|]; intros Hp; specialize (Hlt Hp);
        exists j; split; [done|lia]
      | (* the walk goes on in the open span *)
        by eapply IH
      | (* the open span is closed and a new one opened *)
        rewrite decode_span_open, res_bind_ret in Hw;
        eapply IH; [exact Hw|by apply walk_inv_decode|by apply Hnew] ].
Qed.

(** X5.  On any batch on which the walk of [assemble_output] goes through,
    the spans it hands to [decode] abut: of two neighbours, the first is in
    an earlier row, or it is a non-empty span of the same row that ends
    exactly where the second begins; and no span runs backwards.  So the
    fragments of a row come from consecutive runs of its tokens, none left
    out and none used twice between the first and the last. *)
Theorem assemble_spans_abut batch t :
  assemble_spans batch = Ok t →
  adjacent span_before t
  ∧ Forall (λ x, (span_start x ≤ span_end x)%nat) t.
Proof.
  unfold assemble_spans.
  cut (∀ rows i jv t0 jv' t',
         assemble_rows span_present decode_span rows i jv t0 = Ok (jv', t') →
         adjacent span_before t0 →
         Forall (λ x, (span_start x ≤ span_end x)%nat) t0 →
         (∀ x, last t0 = Some x → (span_row x < i)%nat) →
         adjacent span_before t'
         ∧ Forall (λ x, (span_start x ≤ span_end x)%nat) t').
  { intros Hcut Hw.
    destruct (assemble_rows _ _ batch _ _ _) as [[jv' t']|] eqn:Hr; [|done].
    simpl in Hw. simplify_eq.
    eapply Hcut; [exact Hr|by intros k x y|done|done]. }
  induction rows as [|r rows IH];
    intros i jv t0 jv' t' Hw Hadj Hall Hlast; simpl in Hw.
  { by simplify_eq. }
  destruct (assemble_example _ _ r i jv t0) as [[jv1 t1]|] eqn:He; [|done].
  simpl in Hw. eapply IH; [exact Hw|..];
    unfold assemble_example in He;
    destruct (span_present (example_id r) t0); simplify_eq;
    try done; try (intros x Hx; specialize (Hlast x Hx); lia);
    destruct (assemble_tokens decode_span _ _ _ _ _ _ _ _)
      as [[[[p st] [j|]] t2]|] eqn:Ht; simpl in He; try done;
    rewrite decode_span_open, res_bind_ret in He; simplify_eq;
    (eapply assemble_tokens_chain in Ht as [(Hadj2 & Hall2 & Hlast2) Hj];
       [|split_and!; [done..|]; intros x Hx; left; by apply Hlast
        |by intros [? [=]]]);
    (destruct p as [c|]; simpl;
       [destruct (Hj (mk_is_Some _ _ eq_refl)) as (jf & [= <-] & Hjf)
       |rewrite app_nil_r]).
  - apply adjacent_snoc; [done|]. intros x Hx. unfold span_before. simpl.
    destruct (Hlast2 x Hx) as [?|(? & _ & ? & ?)]; [by left|by right].
  - done.
  - apply Forall_app. split; [done|]. by apply Forall_singleton.
  - done.
  - intros x. rewrite last_snoc. intros [= <-]. simpl. lia.
  - intros x Hx. destruct (Hlast2 x Hx) as [?|(_ & [? [=]] & _)]. lia.
Qed.

(** ** Every run of [assemble_output] replays a run of the span walk *)

Lemma assemble_tokens_spans_ok sp r i tags :
  ∀ j prev_tag start_index jv s out (t : list span),
  assemble_tokens (decode sp) r i tags j prev_tag start_index jv s = Ok out →
  ∃ out',
    assemble_tokens decode_span r i tags j prev_tag start_index jv t
    = Ok out'.
Proof.
  induction tags as [|tag tags IH]; intros j p st jv s out t Hw; simpl in *.
  { eauto. }
  destruct (context_ids r !! j) as [c|]; [|done].
  repeat case_match; simplify_eq; eauto;
    rewrite decode_span_open, res_bind_ret;
    (destruct (decode sp _ _ _ _ _ _) as [s1|]; [|done]);
    simpl in Hw; eauto.
Qed.

Lemma assemble_example_spans_ok sp r i jv s t jv' s' :
  assemble_example preds_present (decode sp) r i jv s = Ok (jv', s') →
  preds_present (example_id r) s = span_present (example_id r) t →
  ∃ d, assemble_example span_present decode_span r i jv t = Ok (jv', t ++ d)
       ∧ run_spans sp d s = Ok s'.
Proof.
  intros Hw Hp.
  assert (∃ out, assemble_example span_present decode_span r i jv t = Ok out)
    as [[jv1 t1] He].
  { unfold assemble_example in *. rewrite <- Hp.
    destruct (preds_present _ s); [eauto|].
    destruct (assemble_tokens (decode sp) _ _ _ _ _ _ _ _)
      as [[[[p st] jv0] s0]|] eqn:Ht; [|done]. simpl in Hw.
    destruct (assemble_tokens_spans_ok _ _ _ _ _ _ _ _ _ _ t Ht)
      as [[[[p1 st1] jv1] t1] Ht1].
    destruct (assemble_tokens_replay sp _ _ _ _ _ _ _ _ _ _ _ _ Ht1)
      as (d & -> & Hd).
    rewrite Hd in Ht. destruct (run_spans sp d s); simpl in Ht; [|done].
    simplify_eq. rewrite Ht1. simpl. destruct jv0; [|done].
    rewrite decode_span_open. simpl. eauto. }
  destruct (assemble_example_replay sp _ _ _ _ _ _ He) as (d & -> & Hd).
  rewrite Hd in Hw by done.
  destruct (run_spans sp d s) eqn:Hrun; simpl in Hw; [|done].
  simplify_eq. eauto.
Qed.

Lemma assemble_rows_spans_ok sp rows : ∀ i jv s t jv' s',
  assemble_rows preds_present (decode sp) rows i jv s = Ok (jv', s') →
  (∀ k, preds_present k s = span_present k t) →
  ∃ d, assemble_rows span_present decode_span rows i jv t = Ok (jv', t ++ d)
       ∧ run_spans sp d s = Ok s'.
Proof.
  induction rows as [|r rows IH]; intros i jv s t jv' s' Hw Hp; simpl in *.
  { simplify_eq. exists []. by rewrite app_nil_r. }
  destruct (assemble_example preds_present _ r i jv s) as [[jv1 s1]|] eqn:He;
    [|done]. simpl in Hw.
  eapply assemble_example_spans_ok in He as (d1 & He1 & Hr1); [|apply Hp].
  rewrite He1. simpl.
  eapply IH in Hw as (d & Hrows & Hr);
    [|intros k; by eapply run_spans_present].
  exists (d1 ++ d). rewrite app_assoc. split; [done|].
  by rewrite run_spans_app, Hr1.
Qed.

(** A run of [assemble_output] that returns is the replay of the spans the
    span walk records on the same batch. *)
Lemma assemble_loop_trace sp batch s :
  assemble_loop sp batch = Ok s →
  ∃ t, assemble_spans batch = Ok t ∧ run_spans sp t (∅, 0%nat) = Ok s.
Proof.
  unfold assemble_loop, assemble_spans. intros Hw.
  destruct (assemble_rows preds_present _ _ _ _ _) as [[jv' s']|] eqn:Hr;
    [|done]. simpl in Hw. simplify_eq.
  eapply (assemble_rows_spans_ok _ _ _ _ _ []) in Hr as (d & -> & Hrun).
  - by exists d.
  - intros k. unfold preds_present, span_present. simpl.
    apply bool_decide_eq_false. rewrite lookup_empty. by intros [].
Qed.

Lemma assemble_output_trace sp batch preds :
  assemble_output sp batch = Ok preds →
  ∃ t n, assemble_spans batch = Ok t
         ∧ run_spans sp t (∅, 0%nat) = Ok (preds, n).
Proof.
  unfold assemble_output. intros Hw.
  destruct (assemble_loop sp batch) as [[preds' n]|] eqn:Hl; [|done].
  simpl in Hw. simplify_eq.
  apply assemble_loop_trace in Hl as (t & Ht & Hrun). by exists t, n.
Qed.

(** ** The spans are spans of the rows of the batch *)

Lemma assemble_tokens_Forall (Q : span → Prop) r i tags :
  (∀ c a b, Q {| span_of := r; span_row := i; span_cat := c;
                 span_start := a; span_end := b |}) →
  ∀ j prev_tag start_index jv t prev_tag' start_index' jv' t',
  assemble_tokens decode_span r i tags j prev_tag start_index jv t
    = Ok (prev_tag', start_index', jv', t') →
  ∃ d, t' = t ++ d ∧ Forall Q d.
Proof.
  intros HQ.
  assert (∀ p st j, Forall Q (open_span r p i st j)) as Hopen.
  { intros [c|] st j; simpl; [|done]. by apply Forall_singleton. }
  induction tags as [|tag tags IH];
    intros j p st jv t p' st' jv' t' Hw; simpl in Hw.
  { simplify_eq. exists []. by rewrite app_nil_r. }
  destruct (context_ids r !! j) as [c|]; [|done].
  repeat case_match; simplify_eq;
    try (exists []; by rewrite app_nil_r); try (by eapply IH);
    rewrite decode_span_open, res_bind_ret in Hw;
    apply IH in Hw as (d & -> & Hd);
    (eexists (_ ++ d); split; [by rewrite app_assoc|]);
    (apply Forall_app; split; [apply Hopen|done]).
Qed.

Lemma assemble_rows_Forall (Q : nat → example → span → Prop) rows :
  (∀ i r c a b, Q i r {| span_of := r; span_row := i; span_cat := c;
                          span_start := a; span_end := b |}) →
  ∀ i jv t jv' t',
  assemble_rows span_present decode_span rows i jv t = Ok (jv', t') →
  ∃ d, t' = t ++ d
       ∧ Forall (λ x, ∃ k r, rows !! k = Some r
                             ∧ Q (i + k)%nat r x) d.
Proof.
  intros HQ.
  induction rows as [|r rows IH]; intros i jv t jv' t' Hw; simpl in Hw.
  { simplify_eq. exists []. by rewrite app_nil_r. }
  destruct (assemble_example _ _ r i jv t) as [[jv1 t1]|] eqn:He; [|done].
  simpl in Hw.
  assert (∃ d1, t1 = t ++ d1 ∧ Forall (Q i r) d1) as (d1 & -> & Hd1).
  { unfold assemble_example in He.
    destruct (span_present _ t).
    { simplify_eq. exists []. by rewrite app_nil_r. }
    destruct (assemble_tokens decode_span _ _ _ _ _ _ _ _)
      as [[[[p st] [j|]] t2]|] eqn:Ht; simpl in He; try done.
    rewrite decode_span_open, res_bind_ret in He. simplify_eq.
    apply (assemble_tokens_Forall (Q i r)) in Ht as (d & -> & Hd);
      [|apply HQ].
    exists (d ++ open_span r p i st j). split; [by rewrite app_assoc|].
    apply Forall_app. split; [done|].
    destruct p; simpl; [apply Forall_singleton; apply HQ|done]. }
  apply IH in Hw as (d & -> & Hd).
  exists (d1 ++ d). split; [by rewrite app_assoc|].
  apply Forall_app. split.
  - eapply Forall_impl; [exact Hd1|]. intros x Hx. exists 0%nat, r.
    by rewrite Nat.add_0_r.
  - eapply Forall_impl; [exact Hd|]. intros x (k & r' & Hk & Hx).
    exists (S k), r'. split; [done|].
    by replace (i + S k)%nat with (S i + k)%nat by lia.
Qed.

Lemma assemble_spans_rows batch t :
  assemble_spans batch = Ok t →
  Forall (λ x, batch !! span_row x = Some (span_of x)) t.
Proof.
  unfold assemble_spans. intros Hw.
  destruct (assemble_rows _ _ batch _ _ _) as [[jv' t']|] eqn:Hr; [|done].
  simpl in Hw. simplify_eq.
  apply (assemble_rows_Forall (λ i r x, span_row x = i ∧ span_of x = r))
    in Hr as (d & -> & Hd); [|done].
  simpl. eapply Forall_impl; [exact Hd|].
  intros x (k & r & Hk & Hrow & Hof). by rewrite Hrow, Hof.
Qed.

(** ** What [assemble_output] returns *)

Lemma run_spans_nonempty sp t : ∀ s s',
  run_spans sp t s = Ok s' →
  (∀ k frs, s.1 !! k = Some frs → frs ≠ []) →
  ∀ k frs, s'.1 !! k = Some frs → frs ≠ [].
Proof.
  induction t as [|x t IH]; intros s s' Hrun Hs; simpl in Hrun.
  { by simplify_eq. }
  destruct (decode _ _ _ _ _ _ s) as [s1|] eqn:Hdec; [|done]. simpl in Hrun.
  eapply IH; [exact Hrun|]. clear Hrun.
  assert (∀ preds txt k frs,
            (∀ k frs, preds !! k = Some frs → frs ≠ []) →
            preds_append preds (example_id (span_of x)) txt !! k = Some frs →
            frs ≠ []) as Happ.
  { intros preds txt k frs Hp. unfold preds_append.
    destruct (decide (example_id (span_of x) = k)) as [<-|Hne].
    - rewrite lookup_insert_eq. intros [= <-].
      by destruct (default [] _).
    - rewrite lookup_insert_ne by done. apply Hp. }
  destruct s as [preds n]; simpl in *.
  destruct (span_cat x); [|destruct sp as [l|]; [destruct (l !! n)|]];
    simplify_eq; simpl; intros k frs; by apply Happ.
Qed.

(** X6.  Whatever the decoder outputs are, a dictionary [assemble_output]
    returns has no entry with an empty list of fragments, and every key of
    it is the example id of a row of the batch. *)
Theorem assemble_output_entries sp batch preds :
  assemble_output sp batch = Ok preds →
  ∀ k frs, preds !! k = Some frs →
    frs ≠ [] ∧ ∃ r, r ∈ batch ∧ example_id r = k.
Proof.
  intros Hw k frs Hk.
  apply assemble_output_trace in Hw as (t & n & Ht & Hrun). split.
  - eapply (run_spans_nonempty _ _ _ _ Hrun); [|exact Hk].
    intros k' frs'. simpl. by rewrite lookup_empty.
  - assert (∀ k', preds_present k' (∅, 0%nat) = span_present k' []) as Hnil.
    { intros k'. unfold preds_present, span_present. simpl.
      apply bool_decide_eq_false. rewrite lookup_empty. by intros []. }
    pose proof (run_spans_present sp t _ _ [] Hrun Hnil k) as Hp.
    unfold preds_present, span_present in Hp. simpl in Hp.
    rewrite Hk in Hp.
    rewrite bool_decide_eq_true_2 in Hp by by eexists.
    symmetry in Hp. apply bool_decide_eq_true in Hp.
    apply list_elem_of_fmap in Hp as (x & -> & Hx).
    apply assemble_spans_rows in Ht. rewrite Forall_forall in Ht.
    exists (span_of x). split; [|done].
    eapply list_elem_of_lookup_2. by apply Ht.
Qed.

(** X7.  Without decoder outputs ([seq_preds] is [None], what [inference]
    returns when it registers no span), [assemble_output] raises a
    [TypeError] as soon as its own walk meets a span to rewrite, on any
    batch; if its walk meets none, it returns the verbatim text of every
    span, under the example id of the span's row. *)
Theorem assemble_output_None batch t :
  assemble_spans batch = Ok t →
  (rewrite_spans t ≠ [] → assemble_output None batch = Err TypeError)
  ∧ (rewrite_spans t = [] →
       ∃ preds,
         assemble_output None batch = Ok preds
         ∧ ∀ k, fragments preds k
                = verbatim <$> filter (λ x, span_example x = k) t).
Proof.
  intros Ht. unfold assemble_output.
  rewrite (assemble_loop_replay None _ _ Ht). split; intros Hrw.
  - by rewrite run_spans_None.
  - rewrite run_spans_verbatim by done. simpl. eexists. split; [done|].
    intros k. rewrite fragments_verbatim. unfold fragments.
    by rewrite lookup_empty.
Qed.

Lemma run_spans_texts l t : ∀ preds n preds' n',
  run_spans (Some l) t (preds, n) = Ok (preds', n') →
  ∃ txts,
    span_texts l n t = Some txts
    ∧ length txts = length t
    ∧ ∀ k, fragments preds' k
           = fragments preds k
             ++ (snd <$> filter (λ p, span_example p.1 = k) (zip t txts)).
Proof.
  induction t as [|x t IH]; intros preds n preds' n' Hrun; simpl in *.
  { simplify_eq. exists []. split_and!; [done..|].
    intros k. by rewrite app_nil_r. }
  destruct (span_cat x) eqn:Hc; simpl in Hrun.
  - apply IH in Hrun as (txts & -> & Hlen & Hfr). simpl.
    eexists. split_and!; [done|simpl; by rewrite Hlen|].
    intros k. rewrite Hfr, fragments_append. simpl.
    rewrite filter_cons. unfold span_example at 2. simpl.
    repeat case_decide; simplify_eq; simpl;
      by rewrite <- ?app_assoc, ?app_nil_r.
  - destruct (l !! n) as [ids|]; simpl in Hrun; [|done].
    apply IH in Hrun as (txts & -> & Hlen & Hfr). simpl.
    eexists. split_and!; [done|simpl; by rewrite Hlen|].
    intros k. rewrite Hfr, fragments_append. simpl.
    rewrite filter_cons. unfold span_example at 2. simpl.
    repeat case_decide; simplify_eq; simpl;
      by rewrite <- ?app_assoc, ?app_nil_r.
Qed.

Lemma run_spans_ext l l' t : ∀ preds n,
  (∀ k, (n ≤ k < n + length (rewrite_spans t))%nat → l !! k = l' !! k) →
  run_spans (Some l) t (preds, n) = run_spans (Some l') t (preds, n).
Proof.
  induction t as [|x t IH]; intros preds n Hl; simpl; [done|].
  rewrite rewrite_spans_cons in Hl.
  destruct (span_cat x); simpl in *.
  - by apply IH.
  - rewrite <- (Hl n) by lia.
    destruct (l !! n) as [ids|]; simpl; [|done].
    apply IH. intros k Hk. apply Hl. lia.
Qed.

(** ** Too few and too many decoder outputs *)

(** C4 (amended).  Let the walk of [assemble_output] cut the batch into the
    spans [t].  With fewer decoder outputs than [t] has rewrite spans the
    call fails with [IndexError]: the lookup past the end of [seq_preds]
    raises and nothing is returned.  With as many or more the call succeeds
    and uses one output per rewrite span, in order: the fragments under an
    example id are the texts of its spans in the order of the walk, the
    n-th rewrite span of the batch taking row n of [seq_preds].  Outputs
    beyond those are left unused without any error: whatever stands in
    their place, the result is the same. *)
Theorem assemble_output_seq_preds batch t seq_preds :
  assemble_spans batch = Ok t →
  ((length seq_preds < length (rewrite_spans t))%nat →
     assemble_output (Some seq_preds) batch = Err IndexError)
  ∧ ((length (rewrite_spans t) ≤ length seq_preds)%nat →
       ∃ preds txts,
         assemble_loop (Some seq_preds) batch
         = Ok (preds, length (rewrite_spans t))
         ∧ span_texts seq_preds 0 t = Some txts
         ∧ length txts = length t
         ∧ (∀ k, fragments preds k
                 = snd <$> filter (λ p, span_example p.1 = k) (zip t txts))
         ∧ ∀ surplus,
             assemble_loop
               (Some (take (length (rewrite_spans t)) seq_preds ++ surplus))
               batch
             = Ok (preds, length (rewrite_spans t))).
Proof.
  intros Ht. unfold assemble_output. split; intros Hlen.
  - rewrite (assemble_loop_replay _ _ _ Ht).
    by rewrite run_spans_short by (simpl; lia).
  - destruct (run_spans_enough seq_preds t ∅ 0) as [preds Hrun]; [done|].
    simpl in Hrun.
    destruct (run_spans_texts _ _ _ _ _ _ Hrun) as (txts & Htx & Hl & Hfr).
    exists preds, txts. split_and!; [|done|done| |].
    + by rewrite (assemble_loop_replay _ _ _ Ht).
    + intros k. rewrite Hfr. unfold fragments. by rewrite lookup_empty.
    + intros surplus. rewrite (assemble_loop_replay _ _ _ Ht), <- Hrun.
      apply run_spans_ext. intros k Hk.
      rewrite lookup_app_l by (rewrite length_take; lia).
      rewrite lookup_take. by destruct (decide (k < _)%nat); [|lia].
Qed.

(** X8.  With decoder outputs for every span to rewrite that its walk
    meets, [assemble_output] returns, on any batch, and the fragments under
    an example id are the texts of the spans of that id in the order of the
    walk: the text of the span's own tokens for a plain span, and for the
    n-th span to rewrite of the batch the text of row n of the decoder
    outputs. *)
Theorem assemble_output_texts batch t l :
  assemble_spans batch = Ok t →
  (length (rewrite_spans t) ≤ length l)%nat →
  ∃ preds txts,
    assemble_output (Some l) batch = Ok preds
    ∧ span_texts l 0 t = Some txts
    ∧ length txts = length t
    ∧ ∀ k, fragments preds k
           = snd <$> filter (λ p, span_example p.1 = k) (zip t txts).
Proof.
  intros Ht Hlen. unfold assemble_output.
  rewrite (assemble_loop_replay _ _ _ Ht).
  destruct (run_spans_enough l t ∅ 0) as [preds Hrun]; [done|].
  rewrite Hrun.
  apply run_spans_texts in Hrun as (txts & Htx & Hl & Hfr).
  exists preds, txts. split_and!; [done..|].
  intros k. rewrite Hfr. unfold fragments. by rewrite lookup_empty.
Qed.

(** ** The spans of a well-formed row cover its tokens *)

Lemma slice_app {A} (l : list A) (a b c : nat) :
  (a ≤ b ≤ c)%nat → slice l a b ++ slice l b c = slice l a c.
Proof.
  intros Habc. unfold slice.
  replace (c - a)%nat with ((b - a) + (c - b))%nat by lia.
  rewrite <- take_take_drop, drop_drop.
  by replace (a + (b - a))%nat with b by lia.
Qed.

Lemma chain_concat r i e (P : nat → Prop) `{∀ j, Decision (P j)} m :
  ∀ j a, (a < j)%nat → (j + m = e)%nat →
  concat (span_tokens
            <$> zip_with (mk_span r i) (a :: filter P (seq j m))
                  (filter P (seq j m) ++ [e]))
  = slice (context_ids r) a e.
Proof.
  induction m as [|m IH]; intros j a Ha He.
  { simpl. by rewrite app_nil_r. }
  cbn [seq]. rewrite filter_cons. case_decide.
  - etrans; [|apply (slice_app (context_ids r) a j e); lia].
    by rewrite <- (IH (S j) j) by lia.
  - apply IH; lia.
Qed.

Lemma segments_concat r i :
  concat (span_tokens <$> segments r i)
  = body (len_context r) (context_ids r).
Proof.
  unfold segments, spans_by, starts_by, body.
  destruct (Z.to_nat (len_context r - 2)) as [|n] eqn:Hn; [done|].
  cbn [seq]. rewrite filter_cons.
  rewrite decide_True by done. cbn [tail].
  rewrite (chain_concat r i (Z.to_nat (len_context r - 1)) _ n 2 1) by lia.
  unfold slice. by replace (Z.to_nat (len_context r - 1) - 1)%nat
    with (S n) by lia.
Qed.

(** X9.  On a batch of well-formed rows with pairwise distinct example
    ids, the spans [assemble_output] cuts a row into cover the tokens
    between the two markers of the row: put end to end in the order of the
    walk, the tokens of the spans of an example are exactly these tokens,
    none left out, none repeated, and neither marker among them. *)
Theorem spans_cover_body batch :
  labels_ok = true →
  forallb well_formed batch = true →
  distinct_ids batch = true →
  ∃ t,
    assemble_spans batch = Ok t
    ∧ ∀ i r, batch !! i = Some r →
        concat (span_tokens
                  <$> filter (λ x, span_example x = example_id r) t)
        = body (len_context r) (context_ids r).
Proof.
  intros Hlabels Hwf Hids. apply bool_decide_eq_true in Hids.
  exists (batch_segments batch 0 []).
  split; [by apply assemble_spans_segments|].
  intros i r Hr.
  rewrite (batch_segments_filter batch Hids 0 [] i r Hr)
    by (intros r' _; apply not_elem_of_nil).
  apply segments_concat.
Qed.

(** ** [validation_step] and the two loops over the batches *)

Lemma present_nil k : preds_present k (∅, 0%nat) = span_present k [].
Proof.
  unfold preds_present, span_present. simpl.
  apply bool_decide_eq_false. rewrite lookup_empty. by intros [].
Qed.

Lemma batch_segments_mono rows : ∀ i t k,
  k ∈ span_example <$> t → k ∈ span_example <$> batch_segments rows i t.
Proof.
  induction rows as [|r rows IH]; intros i t k Hk; simpl; [done|].
  apply IH. destruct (span_present _ t); [done|].
  rewrite fmap_app, elem_of_app. by left.
Qed.

Lemma batch_segments_ids rows : ∀ i t r,
  r ∈ rows → 2 < len_context r →
  example_id r ∈ span_example <$> batch_segments rows i t.
Proof.
  induction rows as [|r' rows IH]; intros i t r Hr Hlen; simpl.
  { by apply elem_of_nil in Hr. }
  apply elem_of_cons in Hr as [->|Hr]; [|by apply IH].
  apply batch_segments_mono.
  destruct (span_present (example_id r') t) eqn:Hp.
  { by apply bool_decide_eq_true in Hp. }
  rewrite fmap_app, elem_of_app. right.
  destruct (segments_nonempty r' i Hlen) as [x Hx].
  apply last_Some_elem_of in Hx.
  apply list_elem_of_fmap. exists x. split; [|done].
  unfold span_example. by rewrite (segments_of _ _ _ Hx).
Qed.

(** X10.  On a batch of well-formed rows, whether or not two of them carry
    the same example id, [validation_step] raises nothing, provided the
    sequence model returns one row per encoder input: the decoder outputs
    never run out, because the walk of [assemble_output] meets at most as
    many spans to rewrite as [inference] registered.  Every example with a
    token between its markers gets an entry in the predictions. *)
Theorem validation_step_returns batch :
  labels_ok = true →
  forallb well_formed batch = true →
  (∀ src trg src_lengths,
     length src = length (inference_spans batch) →
     length (seq2seq batch (inference_spans batch) src trg src_lengths
               seq_decoder_max_len) = length src) →
  ∃ preds,
    validation_step batch = Ok preds
    ∧ ∀ r, r ∈ batch → 2 < len_context r →
        is_Some (preds !! example_id r).
Proof.
  intros Hlabels Hwf Hseq.
  destruct (inference_eq seq_decoder_max_len batch)
    as (inputs & _ & Hall & Hinf).
  pose proof (assemble_spans_segments Hlabels batch Hwf) as Ht.
  pose proof (batch_segments_count batch Hlabels
                (proj1 (forallb_Forall _ _) Hwf) 0 []) as Hcnt.
  simpl in Hcnt. fold (inference_spans batch) in Hcnt.
  unfold validation_step. rewrite Hinf. simpl.
  assert (∃ s sp,
            sp = seq_preds
                   match inputs with
                   | [] =>
                       {| input_ids := None; seq_preds := None;
                          requests := inference_spans batch;
                          seq2seq_calls := 0 |}
                   | _ :: _ =>
                       {| input_ids := Some (inference_pad inputs);
                          seq_preds :=
                            Some (seq2seq batch (inference_spans batch)
                                    (inference_pad inputs)
                                    (replicate
                                       (length (inference_pad inputs))
                                       [bos_id tokenizer_decoder])
                                    (length <$> inputs)
                                    seq_decoder_max_len);
                          requests := inference_spans batch;
                          seq2seq_calls := 1 |}
                   end
            ∧ run_spans sp (batch_segments batch 0 []) (∅, 0%nat) = Ok s)
    as ([preds n] & sp & <- & Hrun).
  { destruct inputs as [|l0 inputs]; simpl.
    - eexists _, _. split; [done|]. apply run_spans_verbatim.
      apply nil_length_inv. simpl in Hall. lia.
    - edestruct (run_spans_enough
                   (seq2seq batch (inference_spans batch)
                      (inference_pad (l0 :: inputs))
                      (replicate (length (inference_pad (l0 :: inputs)))
                         [bos_id tokenizer_decoder])
                      (length <$> l0 :: inputs) seq_decoder_max_len)
                   (batch_segments batch 0 []) ∅ 0) as [preds' Hrun].
      { rewrite Hseq by (by rewrite inference_pad_length).
        rewrite inference_pad_length, Hall. lia. }
      eexists _, _. split; [done|]. exact Hrun. }
  exists preds. split.
  - unfold assemble_output.
    by rewrite (assemble_loop_replay _ _ _ Ht), Hrun.
  - intros r Hr Hlen.
    pose proof (run_spans_present _ _ _ _ [] Hrun present_nil (example_id r))
      as Hp.
    unfold preds_present, span_present in Hp. simpl in Hp.
    rewrite (bool_decide_eq_true_2 (_ ∈ _)) in Hp
      by by apply batch_segments_ids.
    by apply bool_decide_eq_true in Hp.
Qed.

Lemma foldl_dict_update_lookup outputs k : ∀ all_preds,
  foldl dict_update all_preds outputs !! k
  = match last (omap (λ preds, preds !! k) outputs) with
    | Some frs => Some frs
    | None => all_preds !! k
    end.
Proof.
  induction outputs as [|preds outputs IH] using rev_ind; intros all_preds.
  { done. }
  rewrite foldl_app, omap_app, last_app. simpl.
  unfold dict_update at 1. rewrite lookup_union, IH.
  by destruct (preds !! k), (last _), (all_preds !! k).
Qed.

(** X11.  In the predictions [validation_epoch_end] (and
    [test_epoch_end]) evaluates, the entry of an example id is the entry of
    the last step whose predictions have that id, whole: fragments of
    earlier steps under the same id are dropped, not extended; an id no
    step has is not in the result. *)
Theorem validation_epoch_end_lookup outputs k :
  validation_epoch_end outputs !! k
  = last (omap (λ preds : gmap Z (list string), preds !! k) outputs).
Proof.
  unfold validation_epoch_end. rewrite foldl_dict_update_lookup.
  rewrite lookup_empty. by destruct (last _).
Qed.

Lemma infer_batch_step all_preds batch :
  infer_batch seq_decoder_max_len all_preds batch
  = (preds ← validation_step batch; Ok (dict_update all_preds preds)).
Proof.
  unfold infer_batch, validation_step. by rewrite res_bind_assoc.
Qed.

Lemma infer_batches_app max_output_length batches1 :
  ∀ batches2 all_preds,
  infer_batches max_output_length (batches1 ++ batches2) all_preds
  = (infer_batches max_output_length batches1 all_preds
     ≫= infer_batches max_output_length batches2).
Proof.
  induction batches1 as [|b batches1 IH]; intros batches2 all_preds; simpl.
  { done. }
  rewrite res_bind_assoc.
  destruct (infer_batch _ all_preds b); simpl; [apply IH|done].
Qed.

Lemma infer_batches_steps batches outputs :
  Forall2 (λ b o, validation_step b = Ok o) batches outputs →
  ∀ all_preds,
    infer_batches seq_decoder_max_len batches all_preds
    = Ok (foldl dict_update all_preds outputs).
Proof.
  induction 1 as [|b o batches outputs Hb _ IH]; intros all_preds; simpl.
  { done. }
  rewrite infer_batch_step, Hb. simpl. apply IH.
Qed.

(** X12.  Called with the maximal output length of the configuration
    ([max_output_length] equal to [cfg.seq_decoder.max_len]; its default is
    10), [infer] and a validation or test epoch agree: if the steps on the
    batches return, [infer] on these batches returns the predictions
    [validation_epoch_end] builds from the outputs of the steps; and if the
    step on a batch raises after the steps on the batches before it
    returned, [infer] raises the same error and returns no predictions,
    whatever comes after that batch. *)
Theorem infer_merges_steps max_output_length batches outputs :
  max_output_length = seq_decoder_max_len →
  Forall2 (λ b o, validation_step b = Ok o) batches outputs →
  infer max_output_length batches = Ok (validation_epoch_end outputs)
  ∧ ∀ b post e,
      validation_step b = Err e →
      infer max_output_length (batches ++ b :: post) = Err e.
Proof.
  intros -> Hsteps. unfold infer, validation_epoch_end. split.
  - by apply infer_batches_steps.
  - intros b post e Hb.
    rewrite infer_batches_app, (infer_batches_steps _ _ Hsteps). simpl.
    by rewrite infer_batch_step, Hb.
Qed.

(** ** [assemble_output] reads a row up to its first end marker *)

Lemma take_lookup_eq {A} (l l' : list A) (n j : nat) :
  take n l = take n l' → (j < n)%nat → l !! j = l' !! j.
Proof.
  intros Ht Hj. pose proof (f_equal (.!! j) Ht) as Hl.
  rewrite !lookup_take in Hl. by destruct (decide (j < n)%nat).
Qed.

Lemma slice_take {A} (l l' : list A) (n a b : nat) :
  take n l = take n l' → (b ≤ n)%nat → slice l a b = slice l' a b.
Proof.
  intros Ht Hb. unfold slice. rewrite !take_drop_commute.
  destruct (decide (a ≤ b)%nat) as [Hab|Hab].
  - replace (a + (b - a))%nat with (b `min` n)%nat by lia.
    by rewrite <- !take_take, Ht.
  - by rewrite !drop_ge by (rewrite length_take; lia).
Qed.

Lemma decode_ext sp r r' prev_tag i start_index j s n :
  example_id r = example_id r' →
  take n (context_ids r) = take n (context_ids r') →
  (j ≤ n)%nat →
  decode sp r prev_tag i start_index j s
  = decode sp r' prev_tag i start_index j s.
Proof.
  intros Hid Hctx Hj. destruct s as [preds k]. unfold decode.
  by rewrite Hid, (slice_take _ _ _ _ _ Hctx Hj).
Qed.

Section padding.
Variables (r r' : example) (e : nat).
Hypothesis Hmarkers : bos_id tokenizer_context ≠ eos_id tokenizer_context.
Hypothesis Hid : example_id r = example_id r'.
Hypothesis Heos : context_ids r !! e = Some (eos_id tokenizer_context).
Hypothesis Hctx : take (S e) (context_ids r) = take (S e) (context_ids r').

Lemma assemble_tokens_stops {St}
    (dec : example → option ptag → nat → nat → nat → St → res St) i tags :
  ∀ j prev_tag start_index jv s prev_tag' start_index' jv' s',
  (j ≤ e)%nat → (e - j < length tags)%nat →
  assemble_tokens dec r i tags j prev_tag start_index jv s
    = Ok (prev_tag', start_index', jv', s') →
  ∃ j', jv' = Some j' ∧ (j' ≤ e)%nat.
Proof using Heos Hmarkers.
  induction tags as [|tag tags IH];
    intros j p st jv s p' st' jv' s' Hj Hlen Hw; simpl in *; [lia|].
  destruct (decide (j = e)) as [->|Hne].
  { rewrite Heos in Hw.
    rewrite (proj2 (Z.eqb_neq _ _)), Z.eqb_refl in Hw by done.
    simplify_eq. eauto. }
  destruct (context_ids r !! j) as [c|]; [|done].
  repeat case_match; simplify_eq; eauto;
    try (eapply IH; [| |exact Hw]; lia);
    (destruct (dec _ _ _ _ _ _) as [s1|]; [|done]);
    simpl in Hw; (eapply IH; [| |exact Hw]; lia).
Qed.

Lemma assemble_tokens_padding sp i tags :
  ∀ tags' j prev_tag start_index jv s,
  (j ≤ e)%nat →
  take (e - j) tags = take (e - j) tags' →
  (e - j < length tags)%nat → (e - j < length tags')%nat →
  assemble_tokens (decode sp) r i tags j prev_tag start_index jv s
  = assemble_tokens (decode sp) r' i tags' j prev_tag start_index jv s.
Proof using Hctx Heos Hid Hmarkers.
  induction tags as [|tag tags IH];
    intros [|tag' tags'] j p st jv s Hj Htake Hl Hl'; simpl in Hl, Hl';
    try lia.
  cbn [assemble_tokens].
  rewrite <- (take_lookup_eq _ _ _ j Hctx) by lia.
  destruct (decide (j = e)) as [->|Hne].
  { rewrite Heos.
    by rewrite (proj2 (Z.eqb_neq _ _)), Z.eqb_refl by done. }
  destruct (e - j)%nat as [|m] eqn:Hm; [lia|].
  simpl in Htake. injection Htake as <- Htake.
  destruct (context_ids r !! j) as [c|]; [|done].
  assert (∀ p0 st0 jv0 s0,
            assemble_tokens (decode sp) r i tags (S j) p0 st0 jv0 s0
            = assemble_tokens (decode sp) r' i tags' (S j) p0 st0 jv0 s0)
    as Hrec.
  { intros p0 st0 jv0 s0.
    apply IH; [lia|by replace (e - S j)%nat with m by lia|lia|lia]. }
  rewrite <- !(decode_ext sp r r' _ _ _ j _ (S e) Hid Hctx) by lia.
  repeat case_match; try done; try apply Hrec;
    (destruct (decode sp r _ _ _ _ _) as [s1|]; simpl; [apply Hrec|done]).
Qed.

Lemma assemble_example_padding sp i jv s :
  take e (tag_preds r) = take e (tag_preds r') →
  (e < length (tag_preds r))%nat → (e < length (tag_preds r'))%nat →
  assemble_example preds_present (decode sp) r i jv s
  = assemble_example preds_present (decode sp) r' i jv s.
Proof using Hctx Heos Hid Hmarkers.
  intros Htags Hl Hl'. unfold assemble_example. rewrite <- Hid.
  destruct (preds_present _ s); [done|].
  rewrite <- (assemble_tokens_padding sp i (tag_preds r) (tag_preds r'))
    by (rewrite ?Nat.sub_0_r; done || lia).
  destruct (assemble_tokens (decode sp) r _ _ _ _ _ _ _)
    as [[[[p st] jv'] s']|] eqn:Ht; [|done].
  apply assemble_tokens_stops in Ht as (j' & -> & Hj'); [|lia..].
  simpl. by rewrite (decode_ext sp r r' _ _ _ j' _ (S e) Hid Hctx) by lia.
Qed.

End padding.

(** X13.  [assemble_output] reads a row up to its first end marker and
    nothing else of it: two rows with the same example id, the same tokens
    up to an end marker and the same labels before it give the same
    result, whatever tokens and labels follow the marker, whatever label
    the marker itself carries and whatever the two valid lengths are. *)
Theorem assemble_output_ignores_padding sp pre r r' post e :
  bos_id tokenizer_context ≠ eos_id tokenizer_context →
  example_id r = example_id r' →
  context_ids r !! e = Some (eos_id tokenizer_context) →
  take (S e) (context_ids r) = take (S e) (context_ids r') →
  take e (tag_preds r) = take e (tag_preds r') →
  (e < length (tag_preds r))%nat →
  (e < length (tag_preds r'))%nat →
  assemble_output sp (pre ++ r :: post)
  = assemble_output sp (pre ++ r' :: post).
Proof.
  intros Hmarkers Hid Heos Hctx Htags Hl Hl'.
  unfold assemble_output, assemble_loop. rewrite !assemble_rows_app.
  destruct (assemble_rows _ _ pre _ _ _) as [[jv s]|]; simpl; [|done].
  by rewrite (assemble_example_padding r r' e Hmarkers Hid Heos Hctx).
Qed.

(** ** When [validation_step] raises *)

(** X14.  On any batch on which the walk of [assemble_output] goes
    through, with a sequence model that returns one row per encoder input,
    [validation_step] returns exactly when that walk meets no more spans to
    rewrite than [inference] registered.  When it meets more, the step
    raises: a [TypeError] if [inference] registered no span at all (the
    decoder outputs are [None]), an [IndexError] otherwise (the decoder
    outputs run out). *)
Theorem validation_step_outcome batch t :
  assemble_spans batch = Ok t →
  (∀ src trg src_lengths,
     length src = length (inference_spans batch) →
     length (seq2seq batch (inference_spans batch) src trg src_lengths
               seq_decoder_max_len) = length src) →
  ((length (rewrite_spans t) ≤ length (inference_spans batch))%nat →
     ∃ preds, validation_step batch = Ok preds)
  ∧ ((length (inference_spans batch) < length (rewrite_spans t))%nat →
       validation_step batch
       = Err (match inference_spans batch with
              | [] => TypeError
              | _ :: _ => IndexError
              end)).
Proof.
  intros Ht Hseq.
  destruct (inference_eq seq_decoder_max_len batch)
    as (inputs & _ & Hall & Hinf).
  unfold validation_step. rewrite Hinf. simpl.
  unfold assemble_output.
  destruct inputs as [|l0 inputs]; simpl;
    rewrite (assemble_loop_replay _ _ _ Ht).
  - symmetry in Hall. apply nil_length_inv in Hall. rewrite Hall. simpl.
    split; intros Hlen.
    + rewrite run_spans_verbatim by (apply nil_length_inv; lia).
      by eexists.
    + rewrite run_spans_None; [done|]. intros Hnil. rewrite Hnil in Hlen.
      simpl in Hlen. lia.
  - specialize (Hseq (inference_pad (l0 :: inputs))
                  (replicate (length (inference_pad (l0 :: inputs)))
                     [bos_id tokenizer_decoder])
                  (length <$> l0 :: inputs)
                  (eq_trans (inference_pad_length _) Hall)).
    set (l := seq2seq _ _ _ _ _ _) in *. clearbody l.
    rewrite inference_pad_length, Hall in Hseq.
    destruct (inference_spans batch) as [|q reqs] eqn:Hreq; [done|].
    split; intros Hlen.
    + destruct (run_spans_enough l t ∅ 0) as [preds Hrun]; [simpl; lia|].
      rewrite Hrun. by eexists.
    + rewrite run_spans_short; [done|]. lia.
Qed.

(** ** The variable [j] after the inner loop of [assemble_output] *)

Lemma decode_not_unbound sp r prev_tag i start_index j s :
  decode sp r prev_tag i start_index j s ≠ Err UnboundLocalError.
Proof.
  destruct s as [preds n]. unfold decode.
  by repeat case_match.
Qed.

Lemma assemble_tokens_bound sp r i tags :
  ∀ j prev_tag start_index jv s prev_tag' start_index' jv' s',
  assemble_tokens (decode sp) r i tags j prev_tag start_index jv s
    = Ok (prev_tag', start_index', jv', s') →
  is_Some jv ∨ tags ≠ [] → is_Some jv'.
Proof.
  induction tags as [|tag tags IH];
    intros j p st jv s p' st' jv' s' Hw Hor; simpl in Hw.
  { simplify_eq. by destruct Hor. }
  destruct (context_ids r !! j) as [c|]; [|done].
  repeat case_match; simplify_eq; try done;
    try (eapply IH; [exact Hw|by left]);
    (destruct (decode sp _ _ _ _ _ _) as [s1|]; [|done]);
    simpl in Hw; (eapply IH; [exact Hw|by left]).
Qed.

Lemma assemble_tokens_not_unbound sp r i tags :
  ∀ j prev_tag start_index jv s,
  assemble_tokens (decode sp) r i tags j prev_tag start_index jv s
  ≠ Err UnboundLocalError.
Proof.
  induction tags as [|tag tags IH]; intros j p st jv s; simpl; [done|].
  destruct (context_ids r !! j) as [c|]; [|done].
  repeat case_match; try done; try apply IH;
    (destruct (decode sp _ _ _ _ _ _) as [s1|] eqn:Hd; simpl;
     [apply IH|intros [= ->]; by eapply decode_not_unbound]).
Qed.

Lemma assemble_example_not_unbound sp r i jv s :
  is_Some jv ∨ tag_preds r ≠ [] →
  match assemble_example preds_present (decode sp) r i jv s with
  | Ok (jv', _) => is_Some jv ∨ preds_present (example_id r) s = false →
                   is_Some jv'
  | Err e => e ≠ UnboundLocalError
  end.
Proof.
  intros Hor. unfold assemble_example.
  destruct (preds_present _ s); [by intros [?|?]|].
  destruct (assemble_tokens (decode sp) _ _ _ _ _ _ _ _)
    as [[[[p st] jv'] s']|e] eqn:Ht; simpl.
  - apply assemble_tokens_bound in Ht as [j' ->]; [|done].
    destruct (decode sp _ _ _ _ _ _) as [s1|e] eqn:Hd; simpl; [done|].
    intros ->. by eapply decode_not_unbound.
  - intros ->. by eapply assemble_tokens_not_unbound.
Qed.

Lemma assemble_rows_not_unbound sp rows : ∀ i jv s,
  is_Some jv →
  assemble_rows preds_present (decode sp) rows i jv s
  ≠ Err UnboundLocalError.
Proof.
  induction rows as [|r rows IH]; intros i jv s Hjv; simpl; [done|].
  pose proof (assemble_example_not_unbound sp r i jv s (or_introl Hjv))
    as He.
  destruct (assemble_example _ _ r i jv s) as [[jv' s']|e]; simpl.
  - apply IH, He. by left.
  - by intros [= ->].
Qed.

(** X15.  [assemble_output] raises an [UnboundLocalError] exactly when the
    first row of the batch has an empty row of labels: its inner loop then
    runs over nothing and the call of [decode] after it reads a [j] that
    was never bound.  After a first row with a label, [j] stays bound for
    all rows that follow, also for rows that are skipped and rows without
    labels, and every other failure is of another kind. *)
Theorem assemble_output_unbound sp batch :
  assemble_output sp batch = Err UnboundLocalError
  ↔ ∃ r, batch !! 0%nat = Some r ∧ tag_preds r = [].
Proof.
  unfold assemble_output, assemble_loop.
  destruct batch as [|r rows]; simpl.
  { split; [done|]. by intros (r & [=] & _). }
  pose proof (assemble_example_not_unbound sp r 0 None (∅, 0%nat)) as He.
  split.
  - intros Hw. exists r. split; [done|].
    destruct (tag_preds r) as [|tag tags] eqn:Htags; [done|]. exfalso.
    assert (is_Some (@None nat) ∨ tag :: tags ≠ []) as Hor by by right.
    specialize (He Hor).
    destruct (assemble_example _ _ r _ _ _) as [[jv' s']|e]; simpl in Hw.
    + destruct (assemble_rows _ _ rows _ _ _) as [[jv2 s2]|e] eqn:Hr;
        simpl in Hw; [done|]. simplify_eq.
      eapply assemble_rows_not_unbound; [|exact Hr].
      apply He. right. apply present_nil.
    + by simplify_eq.
  - intros (r0 & [= <-] & Htags).
    unfold assemble_example. rewrite present_nil, Htags. done.
Qed.

(** ** Rows on which the walk of [assemble_output] meets no token *)

Lemma assemble_tokens_blank {St}
    (dec : example → option ptag → nat → nat → nat → St → res St) r i tags :
  ∀ j prev_tag start_index jv s,
  blank_from r tags j = true →
  ∃ jv',
    assemble_tokens dec r i tags j prev_tag start_index jv s
    = Ok (prev_tag, start_index, jv', s)
    ∧ (is_Some jv ∨ tags ≠ [] → is_Some jv').
Proof.
  induction tags as [|tag tags IH]; intros j p st jv s Hb; simpl in *.
  { exists jv. split; [done|]. by intros [?|?]. }
  destruct (context_ids r !! j) as [c|]; [|done].
  destruct (c =? bos_id tokenizer_context).
  - destruct (IH (S j) p st (Some j) s Hb) as (jv' & -> & Hjv).
    exists jv'. split; [done|]. intros _. apply Hjv. by left.
  - rewrite Hb. exists (Some j). split; [done|]. by intros _.
Qed.

Lemma assemble_example_blank {St} (present : Z → St → bool)
    (dec : example → option ptag → nat → nat → nat → St → res St) r i jv s :
  blank r = true →
  (∀ i' st j s', dec r None i' st j s' = Ok s') →
  ∃ jv', assemble_example present dec r i jv s = Ok (jv', s).
Proof.
  unfold blank, assemble_example. intros Hb Hdec.
  destruct (present _ s); [by eexists|].
  destruct (tag_preds r) as [|tag tags] eqn:Htags; [done|].
  destruct (assemble_tokens_blank dec r i (tag :: tags) 0 None 0 jv s Hb)
    as (jv' & -> & Hjv).
  destruct Hjv as [j' ->]; [by right|]. simpl. rewrite Hdec. by eexists.
Qed.

Lemma decode_None sp r i start_index j s :
  decode sp r None i start_index j s = Ok s.
Proof. by destruct s. Qed.

Lemma assemble_tokens_set r i tags :
  ∀ j prev_tag start_index jv t prev_tag' start_index' jv' t',
  assemble_tokens decode_span r i tags j prev_tag start_index jv t
    = Ok (prev_tag', start_index', jv', t') →
  (is_Some prev_tag → is_Some prev_tag')
  ∧ (prev_tag' = None → blank_from r tags j = true).
Proof.
  induction tags as [|tag tags IH];
    intros j p st jv t p' st' jv' t' Hw; simpl in *.
  { by simplify_eq. }
  destruct (context_ids r !! j) as [c|]; [|done].
  destruct (c =? bos_id tokenizer_context); [by eapply IH|].
  destruct (c =? eos_id tokenizer_context); [by simplify_eq|].
  assert (∀ c0 st0 jv0 t0,
            assemble_tokens decode_span r i tags (S j) (Some c0) st0 jv0 t0
              = Ok (p', st', jv', t') →
            (is_Some p → is_Some p') ∧ (p' = None → false = true))
    as Hset.
  { intros c0 st0 jv0 t0 Hw0.
    apply IH in Hw0 as [Hs _].
    destruct (Hs (mk_is_Some _ _ eq_refl)) as [c1 ->]. by split. }
  repeat case_match; simplify_eq;
    try (by eapply Hset);
    rewrite decode_span_open, res_bind_ret in Hw; by eapply Hset.
Qed.

(** The rows that leave no span are the blank ones. *)
Lemma blank_spans r :
  blank r = true ↔ assemble_spans [r] = Ok [].
Proof.
  unfold assemble_spans. simpl. split.
  - intros Hb.
    destruct (assemble_example_blank span_present decode_span r 0 None []
                Hb) as [jv' ->]; [done|]. done.
  - unfold assemble_example, blank. simpl.
    destruct (assemble_tokens decode_span _ _ _ _ _ _ _ _)
      as [[[[p st] [j|]] t]|] eqn:Ht; simpl; try done.
    rewrite decode_span_open. simpl. intros [= Hnil].
    apply app_eq_nil in Hnil as [-> Hp].
    destruct p as [c|]; [done|].
    destruct (tag_preds r) as [|tag tags] eqn:Htags; [by simplify_eq|].
    apply assemble_tokens_set in Ht as [_ Hb]. by apply Hb.
Qed.

Lemma inference_tokens_short i len_i tags acc :
  len_i ≤ 1 → inference_tokens i len_i tags 0 None 0 acc = acc.
Proof.
  intros Hlen. destruct tags as [|tag0 [|tag1 tags]]; simpl; [done..|].
  by rewrite (proj2 (Z.geb_le _ _)) by lia.
Qed.

(** C9 (amended).  The rows that leave no span in the walk of
    [assemble_output] are exactly the blank ones, whose tokens are start
    markers only up to their first end marker or the end of their tags:
    [BOS] alone, [BOS EOS ...] and the like, whatever their valid length.
    Such a row raises nothing and appends nothing: alone in a batch it
    gives the empty result; after any rows it leaves [preds] and the
    counter as they were; and in the result of a batch in which no other
    row carries its example id, it has no entry, so that reading its key
    gives the empty list.  With a valid length of at most 1, [inference]
    registers nothing for it either. *)
Theorem blank_row_no_fragment sp pre r post :
  (blank r = true ↔ assemble_spans [r] = Ok [])
  ∧ (blank r = true →
       (∃ preds,
          assemble_output sp [r] = Ok preds
          ∧ preds !! example_id r = None
          ∧ fragments preds (example_id r) = [])
       ∧ (∀ s, assemble_loop sp pre = Ok s →
               assemble_loop sp (pre ++ [r]) = Ok s)
       ∧ (∀ preds,
            assemble_output sp (pre ++ r :: post) = Ok preds →
            (∀ r', r' ∈ pre ++ post → example_id r' ≠ example_id r) →
            preds !! example_id r = None
            ∧ fragments preds (example_id r) = [])
       ∧ (len_context r ≤ 1 →
            ∀ i acc,
              inference_tokens i (len_context r) (tag_preds r) 0 None 0 acc
              = acc)).
Proof.
  split; [apply blank_spans|]. intros Hb. split_and!.
  - unfold assemble_output, assemble_loop. simpl.
    destruct (assemble_example_blank preds_present (decode sp) r 0 None
                (∅, 0%nat) Hb) as [jv' ->]; [apply decode_None|].
    simpl. exists ∅. unfold fragments. by rewrite lookup_empty.
  - intros s. unfold assemble_loop. rewrite assemble_rows_app.
    destruct (assemble_rows _ _ pre _ _ _) as [[jv1 s1]|]; simpl; [|done].
    intros [= ->].
    destruct (assemble_example_blank preds_present (decode sp) r
                (length pre) jv1 s Hb) as [jv' ->]; [apply decode_None|].
    done.
  - intros preds Hout Hids.
    apply assemble_output_trace in Hout as (t & n & Ht & Hrun).
    assert (example_id r ∉ span_example <$> t) as Hnot.
    { unfold assemble_spans in Ht. rewrite assemble_rows_app in Ht.
      destruct (assemble_rows _ _ pre _ _ _) as [[jv1 t1]|] eqn:Hpre;
        simpl in Ht; [|done].
      destruct (assemble_example_blank span_present decode_span r
                  (length pre) jv1 t1 Hb) as [jv2 He]; [done|].
      rewrite He in Ht. simpl in Ht.
      destruct (assemble_rows _ _ post _ _ _) as [[jv3 t3]|] eqn:Hpost;
        simpl in Ht; [|done]. simplify_eq.
      apply (assemble_rows_Forall (λ _ r' x, span_of x = r')) in Hpre
        as (d1 & -> & Hd1); [|done].
      apply (assemble_rows_Forall (λ _ r' x, span_of x = r')) in Hpost
        as (d3 & -> & Hd3); [|done].
      simpl. rewrite fmap_app, elem_of_app.
      intros [Hin|Hin]; apply list_elem_of_fmap in Hin as (x & Hx & Hin).
      - rewrite Forall_forall in Hd1.
        destruct (Hd1 x Hin) as (k & r' & Hk & Hof).
        apply (Hids r'); [|by rewrite Hx; unfold span_example; rewrite Hof].
        apply elem_of_app. left. by eapply list_elem_of_lookup_2.
      - rewrite Forall_forall in Hd3.
        destruct (Hd3 x Hin) as (k & r' & Hk & Hof).
        apply (Hids r'); [|by rewrite Hx; unfold span_example; rewrite Hof].
        apply elem_of_app. right. by eapply list_elem_of_lookup_2. }
    apply (run_spans_other _ _ _ _ _ Hrun) in Hnot. simpl in Hnot.
    rewrite lookup_empty in Hnot. unfold fragments. by rewrite Hnot.
  - intros Hlen i acc. by apply inference_tokens_short.
Qed.

End TextNormalizationModel.

(** * The properties on sample data *)

(** ** C1 *)

(** C1 as stated fails.  In a batch that presents example id 7 twice,
    [inference] registers the span of either row, [assemble_output] walks the
    first row only; on a row of valid length 3 without end marker,
    followed by padding, [inference] closes the span at index 2 and
    [assemble_output] at index 3; and on [BOS the BOS dogs EOS] with the
    inner start marker labelled B-I, [inference] registers a span for it
    and [assemble_output], which passes over every start marker, walks
    none to rewrite. *)
Lemma span_walks_differ :
  (let r := {| example_id := 7; context_ids := [101; 1; 101; 3; 102];
               tag_preds := [0; 0; 2; 0; 0]; len_context := 5 |} in
   assemble_spans Sample.tokenizer Sample.labels [r]
   = Ok [ {| span_of := r; span_row := 0; span_cat := O;
             span_start := 1; span_end := 3 |};
          {| span_of := r; span_row := 0; span_cat := O;
             span_start := 3; span_end := 4 |} ]
   ∧ inference_spans Sample.labels [r]
     = [ {| row_index := 0; left_column_index := 1;
            right_column_index := 3 |} ])
  ∧ (assemble_spans Sample.tokenizer Sample.labels [Sample.five 7; Sample.five 7]
   = Ok [ {| span_of := Sample.five 7; span_row := 0; span_cat := B;
             span_start := 1; span_end := 2 |} ]
   ∧ inference_spans Sample.labels [Sample.five 7; Sample.five 7]
     = [ {| row_index := 0; left_column_index := 0; right_column_index := 2 |};
         {| row_index := 1; left_column_index := 0; right_column_index := 2 |} ])
  ∧ (assemble_spans Sample.tokenizer Sample.labels [Sample.padded]
     = Ok [ {| span_of := Sample.padded; span_row := 0; span_cat := B;
               span_start := 1; span_end := 3 |};
            {| span_of := Sample.padded; span_row := 0; span_cat := O;
               span_start := 3; span_end := 3 |} ]
     ∧ inference_spans Sample.labels [Sample.padded]
       = [ {| row_index := 0; left_column_index := 0;
              right_column_index := 2 |} ])
  ∧ ¬ (∀ batch t,
         assemble_spans Sample.tokenizer Sample.labels batch = Ok t →
         lr_of_span <$> rewrite_spans t = inference_spans Sample.labels batch).
Proof.
  split; [by split|].
  split_and!; [reflexivity..|]. intros Hclaim.
  by specialize (Hclaim [Sample.five 7; Sample.five 7] _ eq_refl).
Qed.

Lemma span_walks_agree_witness :
  let batch := [Sample.boundary; Sample.five 8; Sample.blank 9] in
  labels_ok Sample.tokenizer Sample.labels = true
  ∧ forallb (well_formed Sample.tokenizer Sample.labels) batch = true
  ∧ distinct_ids batch = true
  ∧ ∃ t,
      assemble_spans Sample.tokenizer Sample.labels batch = Ok t
      ∧ lr_of_span <$> rewrite_spans t = inference_spans Sample.labels batch
      ∧ ∀ seq_preds,
          length seq_preds = length (inference_spans Sample.labels batch) →
          ∃ preds,
            assemble_loop Sample.tokenizer Sample.tokenizer Sample.labels
              (Some seq_preds) batch
            = Ok (preds, length seq_preds).
Proof.
  intros batch. do 3 (split; [reflexivity|]).
  apply (span_walks_agree Sample.tokenizer Sample.tokenizer Sample.labels
           batch); reflexivity.
Defined.

(** ** C2 *)

(** C2 as stated fails.  On [BOS 5 5 5] of valid length 4, without end
    marker, the scan should end at index 4 and close the open span there, so
    that the token at index 3, labelled B-M, is in a span.  [inference]
    stops at index 3, the valid length less one, and closes the span there:
    the token at index 3 is in no registered span. *)
Lemma scan_stops_before_valid_length :
  closure_point Sample.tokenizer Sample.unterminated = 4%nat
  ∧ inference_spans Sample.labels [Sample.unterminated]
    = [ {| row_index := 0; left_column_index := 0; right_column_index := 3 |} ]
  ∧ assemble_spans Sample.tokenizer Sample.labels [Sample.unterminated]
    = Ok [ {| span_of := Sample.unterminated; span_row := 0; span_cat := B;
              span_start := 1; span_end := 3 |} ]
  ∧ ¬ (∀ r k,
         S k = closure_point Sample.tokenizer r →
         tag_preds r !! k = Some (B_M Sample.labels) →
         ∃ q, q ∈ inference_spans Sample.labels [r]
              ∧ left_column_index q < Z.of_nat k < right_column_index q).
Proof.
  split_and!; [reflexivity..|]. intros Hclaim.
  destruct (Hclaim Sample.unterminated 3%nat eq_refl eq_refl)
    as (q & Hq & Hlt).
  vm_compute in Hq. apply list_elem_of_singleton in Hq. subst q.
  simpl in Hlt. lia.
Qed.

Lemma scan_stops_at_end_marker_witness :
  let r := Sample.boundary in
  labels_ok Sample.tokenizer Sample.labels = true
  ∧ well_formed Sample.tokenizer Sample.labels r = true
  ∧ closure_point Sample.tokenizer r = Z.to_nat (len_context r - 1)
  ∧ ∃ t,
      assemble_spans Sample.tokenizer Sample.labels [r] = Ok t
      ∧ Forall (within 1 (closure_point Sample.tokenizer r)) t
      ∧ Forall (λ q, 0 ≤ left_column_index q < right_column_index q
                     ∧ right_column_index q
                       ≤ Z.of_nat (closure_point Sample.tokenizer r))
          (inference_spans Sample.labels [r])
      ∧ (2 < len_context r →
           ∃ x, last t = Some x
                ∧ span_end x = closure_point Sample.tokenizer r)
      ∧ (∀ x, last t = Some x → span_cat x = B →
           last (inference_spans Sample.labels [r]) = Some (lr_of_span x)).
Proof.
  intros r. do 2 (split; [reflexivity|]).
  apply (scan_stops_at_end_marker Sample.tokenizer Sample.labels r);
    reflexivity.
Defined.

(** ** C3 *)

(** C3 as stated fails.  After a first batch has given example id 7 the
    fragment "dogs", a second batch presenting id 7 is assembled like any
    other (its counter advances to 1) and its fragment "five" replaces the
    first. *)
Lemma later_batch_replaces :
  infer Sample.tokenizer Sample.tokenizer Sample.tokenizer Sample.labels
    Sample.seq2seq 10 [[Sample.dogs 7]]
  = Ok {[ 7 := ["dogs"%string] ]}
  ∧ infer Sample.tokenizer Sample.tokenizer Sample.tokenizer Sample.labels
      Sample.seq2seq 10 [[Sample.dogs 7]; [Sample.five 7]]
    = Ok {[ 7 := ["five"%string] ]}
  ∧ assemble_loop Sample.tokenizer Sample.tokenizer Sample.labels
      (Some [[4]]) [Sample.five 7]
    = Ok ({[ 7 := ["five"%string] ]}, 1%nat)
  ∧ ¬ (∀ all_preds batch all_preds' k,
         is_Some (all_preds !! k) →
         infer_batch Sample.tokenizer Sample.tokenizer Sample.tokenizer
           Sample.labels Sample.seq2seq 10 all_preds batch = Ok all_preds' →
         all_preds' !! k = all_preds !! k).
Proof.
  split_and!; [reflexivity..|]. intros Hclaim.
  specialize (Hclaim {[ 7 := ["dogs"%string] ]} [Sample.five 7]
                {[ 7 := ["five"%string] ]} 7).
  rewrite !lookup_singleton_eq in Hclaim.
  by specialize (Hclaim (mk_is_Some _ _ eq_refl) eq_refl).
Qed.

Lemma duplicate_example_id_witness :
  let sp := Some [[4]] in
  let preds : gmap Z (list string) := {[ 7 := ["five"%string] ]} in
  let all_preds : gmap Z (list string) := {[ 7 := ["dogs"%string] ]} in
  assemble_loop Sample.tokenizer Sample.tokenizer Sample.labels sp
    [Sample.five 7] = Ok (preds, 1%nat)
  ∧ preds_present (example_id (Sample.five 7)) (preds, 1%nat) = true
  ∧ infer_batch Sample.tokenizer Sample.tokenizer Sample.tokenizer
      Sample.labels Sample.seq2seq 10 all_preds [Sample.five 7] = Ok preds
  ∧ assemble_loop Sample.tokenizer Sample.tokenizer Sample.labels sp
      ([Sample.five 7] ++ [Sample.five 7]) = Ok (preds, 1%nat)
  ∧ assemble_loop Sample.tokenizer Sample.tokenizer Sample.labels sp
      ([Sample.five 7] ++ Sample.five 7 :: [Sample.dogs 8])
    = assemble_loop Sample.tokenizer Sample.tokenizer Sample.labels sp
        ([Sample.five 7] ++ [Sample.dogs 8])
  ∧ ∃ out preds',
      inference Sample.tokenizer Sample.tokenizer Sample.tokenizer
        Sample.labels Sample.seq2seq 10 [Sample.five 7] = Ok out
      ∧ assemble_output Sample.tokenizer Sample.tokenizer Sample.labels
          (seq_preds out) [Sample.five 7] = Ok preds'
      ∧ ∀ k, preds !! k
             = match preds' !! k with
               | Some l => Some l
               | None => all_preds !! k
               end.
Proof.
  intros sp preds all_preds. do 3 (split; [reflexivity|]).
  apply (duplicate_example_id Sample.tokenizer Sample.tokenizer
           Sample.tokenizer Sample.labels Sample.seq2seq sp [Sample.five 7]
           (Sample.five 7) [Sample.dogs 8] preds 1%nat 10 all_preds
           [Sample.five 7] preds); reflexivity.
Defined.

(** ** C4 *)

(** C4 as stated fails.  The row [BOS the 5 5 dogs EOS] has one rewrite
    span; with two decoder outputs [assemble_output] raises nothing and
    leaves the second unused. *)
Lemma surplus_seq_preds_accepted :
  inference_spans Sample.labels [Sample.boundary]
  = [ {| row_index := 0; left_column_index := 1; right_column_index := 4 |} ]
  ∧ assemble_output Sample.tokenizer Sample.tokenizer Sample.labels
      (Some [[4]; [4]]) [Sample.boundary]
    = Ok {[ 7 := ["the"%string; "five"%string; "dogs"%string] ]}
  ∧ ¬ (∀ batch t seq_preds,
         assemble_spans Sample.tokenizer Sample.labels batch = Ok t →
         length seq_preds ≠ length (rewrite_spans t) →
         is_Ok (assemble_output Sample.tokenizer Sample.tokenizer
                  Sample.labels (Some seq_preds) batch) = false).
Proof.
  split_and!; [reflexivity..|]. intros Hclaim.
  by specialize (Hclaim [Sample.boundary] _ [[4]; [4]] eq_refl
                   ltac:(discriminate)).
Qed.

Lemma assemble_output_seq_preds_witness :
  let batch := [Sample.boundary; Sample.five 8] in
  let t := segments Sample.labels Sample.boundary 0
           ++ segments Sample.labels (Sample.five 8) 1 in
  let seq_preds := [[3]; [4]; [1]] in
  assemble_spans Sample.tokenizer Sample.labels batch = Ok t
  ∧ ((length seq_preds < length (rewrite_spans t))%nat →
       assemble_output Sample.tokenizer Sample.tokenizer Sample.labels
         (Some seq_preds) batch = Err IndexError)
  ∧ ((length (rewrite_spans t) ≤ length seq_preds)%nat →
       ∃ preds txts,
         assemble_loop Sample.tokenizer Sample.tokenizer Sample.labels
           (Some seq_preds) batch
         = Ok (preds, length (rewrite_spans t))
         ∧ span_texts Sample.tokenizer Sample.tokenizer seq_preds 0 t
           = Some txts
         ∧ length txts = length t
         ∧ (∀ k, fragments preds k
                 = snd <$> filter (λ p, span_example p.1 = k) (zip t txts))
         ∧ ∀ surplus,
             assemble_loop Sample.tokenizer Sample.tokenizer Sample.labels
               (Some (take (length (rewrite_spans t)) seq_preds ++ surplus))
               batch
             = Ok (preds, length (rewrite_spans t))).
Proof.
  intros batch t seq_preds. split; [reflexivity|].
  apply (assemble_output_seq_preds Sample.tokenizer Sample.tokenizer
           Sample.labels batch t seq_preds); reflexivity.
Defined.

(** ** C6 *)

(** C6 as stated fails.  On [BOS 5 5 EOS] with both tokens labelled B-I the
    maximal run of rewrite tokens is one span over both; either walk cuts it
    in two at the second B-I. *)
Lemma start_label_splits_run :
  maximal_runs Sample.labels Sample.two_starts 0
  = [ {| span_of := Sample.two_starts; span_row := 0; span_cat := B;
         span_start := 1; span_end := 3 |} ]
  ∧ assemble_spans Sample.tokenizer Sample.labels [Sample.two_starts]
    = Ok [ {| span_of := Sample.two_starts; span_row := 0; span_cat := B;
              span_start := 1; span_end := 2 |};
           {| span_of := Sample.two_starts; span_row := 0; span_cat := B;
              span_start := 2; span_end := 3 |} ]
  ∧ inference_spans Sample.labels [Sample.two_starts]
    = [ {| row_index := 0; left_column_index := 0; right_column_index := 2 |};
        {| row_index := 0; left_column_index := 1; right_column_index := 3 |} ]
  ∧ ¬ (∀ r,
         well_formed Sample.tokenizer Sample.labels r = true →
         assemble_spans Sample.tokenizer Sample.labels [r]
         = Ok (maximal_runs Sample.labels r 0)).
Proof.
  split_and!; [reflexivity..|]. intros Hclaim.
  by specialize (Hclaim Sample.two_starts eq_refl).
Qed.

Lemma spans_begin_by_rule_witness :
  let r := Sample.two_starts in
  labels_ok Sample.tokenizer Sample.labels = true
  ∧ well_formed Sample.tokenizer Sample.labels r = true
  ∧ assemble_spans Sample.tokenizer Sample.labels [r]
    = Ok (segments Sample.labels r 0)
  ∧ inference_spans Sample.labels [r]
    = lr_of_span <$> rewrite_spans (segments Sample.labels r 0)
  ∧ span_start <$> segments Sample.labels r 0
    = filter (λ j, begins_span Sample.labels (tag_preds r) j = true)
        (seq 1 (Z.to_nat (len_context r - 2)))
  ∧ Forall (λ x, tag_preds r !! span_start x
                   ≫= (Some ∘ category Sample.labels)
                 = Some (span_cat x)) (segments Sample.labels r 0).
Proof.
  intros r. do 2 (split; [reflexivity|]).
  apply (spans_begin_by_rule Sample.tokenizer Sample.labels r); reflexivity.
Defined.

(** ** C7 *)

(** C7 as stated fails.  On [BOS the dogs EOS] with both tokens labelled
    O-I no span is registered and the maximal run of plain tokens is "the
    dogs"; [assemble_output] yields the two fragments "the" and "dogs".
    And in a batch that presents example id 7 twice the second row is not
    reconstructed at all. *)
Lemma plain_run_split_at_start_label :
  inference_spans Sample.labels [Sample.two_plain] = []
  ∧ verbatim Sample.tokenizer <$> maximal_runs Sample.labels Sample.two_plain 0
    = ["the dogs"%string]
  ∧ assemble_output Sample.tokenizer Sample.tokenizer Sample.labels None
      [Sample.two_plain]
    = Ok {[ 7 := ["the"%string; "dogs"%string] ]}
  ∧ inference_spans Sample.labels [Sample.dogs 7; Sample.two_plain] = []
  ∧ assemble_output Sample.tokenizer Sample.tokenizer Sample.labels None
      [Sample.dogs 7; Sample.two_plain]
    = Ok {[ 7 := ["dogs"%string] ]}
  ∧ ¬ (∀ batch i r,
         forallb (well_formed Sample.tokenizer Sample.labels) batch = true →
         inference_spans Sample.labels batch = [] →
         batch !! i = Some r →
         ∃ preds,
           assemble_output Sample.tokenizer Sample.tokenizer Sample.labels
             None batch = Ok preds
           ∧ fragments preds (example_id r)
             = verbatim Sample.tokenizer <$> maximal_runs Sample.labels r i).
Proof.
  split_and!; [reflexivity..|]. intros Hclaim.
  destruct (Hclaim [Sample.two_plain] 0%nat Sample.two_plain
              eq_refl eq_refl eq_refl) as (preds & Hp & Hf).
  vm_compute in Hp. injection Hp as <-. by vm_compute in Hf.
Qed.

Lemma no_request_batch_witness :
  let batch := [Sample.two_plain; Sample.dogs 8] in
  labels_ok Sample.tokenizer Sample.labels = true
  ∧ forallb (well_formed Sample.tokenizer Sample.labels) batch = true
  ∧ distinct_ids batch = true
  ∧ inference_spans Sample.labels batch = []
  ∧ inference Sample.tokenizer Sample.tokenizer Sample.tokenizer
      Sample.labels Sample.seq2seq 10 batch
    = Ok {| input_ids := None; seq_preds := None; requests := [];
            seq2seq_calls := 0 |}
  ∧ ∃ preds,
      assemble_output Sample.tokenizer Sample.tokenizer Sample.labels None
        batch = Ok preds
      ∧ ∀ i r, batch !! i = Some r →
          fragments preds (example_id r)
          = verbatim Sample.tokenizer <$> segments Sample.labels r i.
Proof.
  intros batch. do 4 (split; [reflexivity|]).
  apply (no_request_batch Sample.tokenizer Sample.tokenizer Sample.tokenizer
           Sample.labels Sample.seq2seq 10 batch); reflexivity.
Defined.

(** ** C8 *)

(** C8 as stated fails.  On the boundary example the one registered span has
    left column 1 and right column 4, not 0 and 3. *)
Lemma boundary_columns :
  inference_spans Sample.labels [Sample.boundary]
  = [ {| row_index := 0; left_column_index := 1; right_column_index := 4 |} ]
  ∧ inference_spans Sample.labels [Sample.boundary]
    ≠ [ {| row_index := 0; left_column_index := 0; right_column_index := 3 |} ].
Proof. split; [reflexivity|discriminate]. Qed.

Lemma boundary_example_witness :
  let r := {| example_id := 7;
              context_ids := [bos_id Sample.tokenizer; 1; 2; 2; 3;
                              eos_id Sample.tokenizer];
              tag_preds := [0; O_I Sample.labels; B_I Sample.labels;
                            B_M Sample.labels; O_I Sample.labels; 0];
              len_context := 6 |} in
  labels_ok Sample.tokenizer Sample.labels = true
  ∧ plain_id Sample.tokenizer 1 = true
  ∧ plain_id Sample.tokenizer 2 = true
  ∧ plain_id Sample.tokenizer 3 = true
  ∧ inference_spans Sample.labels [r]
    = [ {| row_index := 0; left_column_index := 1; right_column_index := 4 |} ]
  ∧ slice (context_ids r) 2 4 = [2; 2]
  ∧ assemble_output Sample.tokenizer Sample.tokenizer Sample.labels
      (Some [[4]]) [r]
    = Ok {[ 7 := [ ids_to_text Sample.tokenizer [1];
                   ids_to_text Sample.tokenizer [4];
                   ids_to_text Sample.tokenizer [3] ] ]}.
Proof.
  intros r. do 4 (split; [reflexivity|]).
  apply (boundary_example Sample.tokenizer Sample.tokenizer Sample.labels
           1 2 3 0 0 7 [4]); reflexivity.
Defined.

(** ** C9 *)

(** C9 as stated fails.  [assemble_output] does not read the valid length:
    on [BOS pad pad] of valid length 1 it walks the padding as tokens and
    yields a fragment for them. *)
Lemma valid_length_not_read :
  len_context Sample.only_start = 1
  ∧ assemble_output Sample.tokenizer Sample.tokenizer Sample.labels None
      [Sample.only_start]
    = Ok {[ 7 := ["#"%string] ]}
  ∧ ¬ (∀ r seq_preds,
         len_context r ≤ 1 →
         ∃ preds,
           assemble_output Sample.tokenizer Sample.tokenizer Sample.labels
             seq_preds [r] = Ok preds
           ∧ fragments preds (example_id r) = []).
Proof.
  split_and!; [reflexivity..|]. intros Hclaim.
  destruct (Hclaim Sample.only_start None ltac:(done)) as (preds & Hp & Hf).
  vm_compute in Hp. injection Hp as <-. by vm_compute in Hf.
Qed.

(** The rows [BOS EOS pad] and [BOS] of valid length 1. *)
Lemma blank_row_no_fragment_witness :
  let r := {| example_id := 9; context_ids := [101; 102; 0];
              tag_preds := [0; 0; 0]; len_context := 1 |} in
  let r1 := {| example_id := 9; context_ids := [101];
               tag_preds := [0]; len_context := 1 |} in
  let sp := Some [[4]] in
  let pre := [Sample.five 7] in
  let post := [Sample.dogs 8] in
  blank Sample.tokenizer r = true
  ∧ blank Sample.tokenizer r1 = true
  ∧ len_context r ≤ 1
  ∧ (∃ preds,
       assemble_output Sample.tokenizer Sample.tokenizer Sample.labels sp [r]
       = Ok preds
       ∧ preds !! example_id r = None
       ∧ fragments preds (example_id r) = [])
  ∧ (∃ preds,
       assemble_output Sample.tokenizer Sample.tokenizer Sample.labels sp [r1]
       = Ok preds
       ∧ preds !! example_id r1 = None
       ∧ fragments preds (example_id r1) = [])
  ∧ (∀ s, assemble_loop Sample.tokenizer Sample.tokenizer Sample.labels sp
            pre = Ok s →
          assemble_loop Sample.tokenizer Sample.tokenizer Sample.labels sp
            (pre ++ [r]) = Ok s)
  ∧ (∀ preds,
       assemble_output Sample.tokenizer Sample.tokenizer Sample.labels sp
         (pre ++ r :: post) = Ok preds →
       (∀ r', r' ∈ pre ++ post → example_id r' ≠ example_id r) →
       preds !! example_id r = None ∧ fragments preds (example_id r) = [])
  ∧ (len_context r ≤ 1 →
       ∀ i acc,
         inference_tokens Sample.labels i (len_context r) (tag_preds r) 0
           None 0 acc = acc).
Proof.
  intros r r1 sp pre post.
  do 2 (split; [reflexivity|]). split; [simpl; lia|].
  pose proof (proj2 (blank_row_no_fragment Sample.tokenizer Sample.tokenizer
                       Sample.labels sp pre r post) eq_refl)
    as (Hone & Hafter & Hbatch & Hinf).
  pose proof (proj2 (blank_row_no_fragment Sample.tokenizer Sample.tokenizer
                       Sample.labels sp pre r1 post) eq_refl)
    as (Hone1 & _).
  split; [exact Hone|]. split; [exact Hone1|]. split; [exact Hafter|].
  split; [exact Hbatch|exact Hinf].
Defined.

(** ** C10 *)

(** C10 as stated fails.  When the first of two rows with example id 7 has
    no token between its markers, it leaves no entry, the second row is
    assembled, and the counter ends on 1, the number of registered spans. *)
Lemma duplicate_after_blank_row :
  inference_spans Sample.labels [Sample.blank 7; Sample.five 7]
  = [ {| row_index := 1; left_column_index := 0; right_column_index := 2 |} ]
  ∧ assemble_loop Sample.tokenizer Sample.tokenizer Sample.labels
      (Some [[4]]) [Sample.blank 7; Sample.five 7]
    = Ok ({[ 7 := ["five"%string] ]}, 1%nat)
  ∧ ¬ (∀ batch i1 i2 r1 r2 sp preds n,
         batch !! i1 = Some r1 → batch !! i2 = Some r2 → (i1 < i2)%nat →
         example_id r1 = example_id r2 →
         inference_spans Sample.labels [r2] ≠ [] →
         assemble_loop Sample.tokenizer Sample.tokenizer Sample.labels
           (Some sp) batch = Ok (preds, n) →
         (n < length (inference_spans Sample.labels batch))%nat).
Proof.
  split_and!; [reflexivity..|]. intros Hclaim.
  specialize (Hclaim [Sample.blank 7; Sample.five 7] 0%nat 1%nat
                (Sample.blank 7) (Sample.five 7) [[4]] _ _
                eq_refl eq_refl ltac:(lia) eq_refl ltac:(discriminate)
                eq_refl).
  vm_compute in Hclaim. lia.
Qed.

Lemma duplicate_row_in_batch_witness :
  let batch := [Sample.five 7; Sample.five 7] in
  let sp := [[4]; [4]] in
  labels_ok Sample.tokenizer Sample.labels = true
  ∧ forallb (well_formed Sample.tokenizer Sample.labels) batch = true
  ∧ batch !! 0%nat = Some (Sample.five 7)
  ∧ batch !! 1%nat = Some (Sample.five 7)
  ∧ (0 < 1)%nat
  ∧ example_id (Sample.five 7) = example_id (Sample.five 7)
  ∧ 2 < len_context (Sample.five 7)
  ∧ inference_spans Sample.labels [Sample.five 7] ≠ []
  ∧ length sp = length (inference_spans Sample.labels batch)
  ∧ (∃ before after,
       inference_spans Sample.labels batch
       = before
         ++ inference_tokens Sample.labels 1 (len_context (Sample.five 7))
              (tag_preds (Sample.five 7)) 0 None 0 []
         ++ after)
  ∧ ∃ preds n,
      assemble_loop Sample.tokenizer Sample.tokenizer Sample.labels
        (Some sp) batch = Ok (preds, n)
      ∧ (n < length (inference_spans Sample.labels batch))%nat.
Proof.
  intros batch sp.
  do 4 (split; [reflexivity|]). split; [lia|].
  do 2 (split; [reflexivity|]). split; [discriminate|].
  split; [reflexivity|].
  apply (duplicate_row_in_batch Sample.tokenizer Sample.tokenizer Sample.labels
           batch 0%nat 1%nat (Sample.five 7) (Sample.five 7) sp);
    first [reflexivity | lia | discriminate].
Defined.

(** * Instances of the further properties *)

(** Two rows that differ in the label of the start marker and in the label
    of the end marker only. *)
Lemma inference_reads_valid_labels_witness :
  let r := Sample.boundary in
  let r' := {| example_id := 7; context_ids := [101; 1; 2; 2; 3; 102];
               tag_preds := [3; 0; 2; 3; 0; 2]; len_context := 6 |} in
  len_context r = len_context r'
  ∧ length (tag_preds r) = length (tag_preds r')
  ∧ (∀ j, (1 ≤ j)%nat → Z.of_nat j < len_context r - 1 →
          tag_preds r !! j = tag_preds r' !! j)
  ∧ inference_spans Sample.labels ([Sample.five 8] ++ r :: [Sample.dogs 9])
    = inference_spans Sample.labels
        ([Sample.five 8] ++ r' :: [Sample.dogs 9]).
Proof.
  intros r r'.
  assert (∀ j, (1 ≤ j)%nat → Z.of_nat j < len_context r - 1 →
               tag_preds r !! j = tag_preds r' !! j) as Hj.
  { intros j H1 H2. simpl in H2.
    destruct j as [|[|[|[|[|j]]]]]; first [reflexivity | lia]. }
  do 2 (split; [reflexivity|]). split; [exact Hj|].
  apply (inference_reads_valid_labels Sample.labels [Sample.five 8] r r'
           [Sample.dogs 9]); [reflexivity | reflexivity | exact Hj].
Defined.

Lemma assemble_spans_abut_witness :
  let batch := [Sample.boundary; Sample.five 8] in
  let t := segments Sample.labels Sample.boundary 0
           ++ segments Sample.labels (Sample.five 8) 1 in
  assemble_spans Sample.tokenizer Sample.labels batch = Ok t
  ∧ adjacent span_before t
  ∧ Forall (λ x, (span_start x ≤ span_end x)%nat) t.
Proof.
  intros batch t. split; [reflexivity|].
  apply (assemble_spans_abut Sample.tokenizer Sample.labels batch t).
  reflexivity.
Defined.

Lemma assemble_output_entries_witness :
  let sp := Some [[4]] in
  let batch := [Sample.boundary; Sample.blank 9] in
  let frs := ["the"; "five"; "dogs"]%string in
  let preds : gmap Z (list string) := {[ 7 := frs ]} in
  assemble_output Sample.tokenizer Sample.tokenizer Sample.labels sp batch
    = Ok preds
  ∧ preds !! 7 = Some frs
  ∧ frs ≠ []
  ∧ ∃ r, r ∈ batch ∧ example_id r = 7.
Proof.
  intros sp batch frs preds. do 2 (split; [reflexivity|]).
  apply (assemble_output_entries Sample.tokenizer Sample.tokenizer
           Sample.labels sp batch preds); reflexivity.
Defined.

(** A row of valid length 2 with a token labelled B-I before its end
    marker: [inference] registers nothing, the walk of [assemble_output]
    meets a span to rewrite. *)
Lemma assemble_output_None_witness :
  let r := {| example_id := 7; context_ids := [101; 2; 102];
              tag_preds := [0; 2; 0]; len_context := 2 |} in
  let t := [ {| span_of := r; span_row := 0; span_cat := B;
                span_start := 1; span_end := 2 |} ] in
  assemble_spans Sample.tokenizer Sample.labels [r] = Ok t
  ∧ (rewrite_spans t ≠ [] →
       assemble_output Sample.tokenizer Sample.tokenizer Sample.labels
         None [r] = Err TypeError)
  ∧ (rewrite_spans t = [] →
       ∃ preds,
         assemble_output Sample.tokenizer Sample.tokenizer Sample.labels
           None [r] = Ok preds
         ∧ ∀ k, fragments preds k
                = verbatim Sample.tokenizer
                    <$> filter (λ x, span_example x = k) t).
Proof.
  intros r t. split; [reflexivity|].
  apply (assemble_output_None Sample.tokenizer Sample.tokenizer Sample.labels
           [r] t).
  reflexivity.
Defined.

Lemma assemble_output_texts_witness :
  let batch := [Sample.boundary; Sample.five 8] in
  let t := segments Sample.labels Sample.boundary 0
           ++ segments Sample.labels (Sample.five 8) 1 in
  let l := [[4]; [3]; [1]] in
  assemble_spans Sample.tokenizer Sample.labels batch = Ok t
  ∧ (length (rewrite_spans t) ≤ length l)%nat
  ∧ ∃ preds txts,
      assemble_output Sample.tokenizer Sample.tokenizer Sample.labels
        (Some l) batch = Ok preds
      ∧ span_texts Sample.tokenizer Sample.tokenizer l 0 t = Some txts
      ∧ length txts = length t
      ∧ ∀ k, fragments preds k
             = snd <$> filter (λ p, span_example p.1 = k) (zip t txts).
Proof.
  intros batch t l. split; [reflexivity|].
  split; [vm_compute; lia|].
  apply (assemble_output_texts Sample.tokenizer Sample.tokenizer
           Sample.labels batch t l); [reflexivity | vm_compute; lia].
Defined.

Lemma spans_cover_body_witness :
  let batch := [Sample.boundary; Sample.five 8; Sample.blank 9] in
  labels_ok Sample.tokenizer Sample.labels = true
  ∧ forallb (well_formed Sample.tokenizer Sample.labels) batch = true
  ∧ distinct_ids batch = true
  ∧ ∃ t,
      assemble_spans Sample.tokenizer Sample.labels batch = Ok t
      ∧ ∀ i r, batch !! i = Some r →
          concat (span_tokens
                    <$> filter (λ x, span_example x = example_id r) t)
          = body (len_context r) (context_ids r).
Proof.
  intros batch. do 3 (split; [reflexivity|]).
  apply (spans_cover_body Sample.tokenizer Sample.labels batch);
    reflexivity.
Defined.

(** A batch with two rows of example id 7. *)
Lemma validation_step_returns_witness :
  let batch := [Sample.boundary; Sample.five 7; Sample.dogs 8] in
  labels_ok Sample.tokenizer Sample.labels = true
  ∧ forallb (well_formed Sample.tokenizer Sample.labels) batch = true
  ∧ (∀ src trg src_lengths,
       length src = length (inference_spans Sample.labels batch) →
       length (Sample.seq2seq batch (inference_spans Sample.labels batch)
                 src trg src_lengths 10) = length src)
  ∧ ∃ preds,
      validation_step Sample.tokenizer Sample.tokenizer Sample.tokenizer
        Sample.labels Sample.seq2seq 10 batch = Ok preds
      ∧ ∀ r, r ∈ batch → 2 < len_context r →
          is_Some (preds !! example_id r).
Proof.
  intros batch.
  assert (∀ src trg src_lengths,
            length src = length (inference_spans Sample.labels batch) →
            length (Sample.seq2seq batch (inference_spans Sample.labels batch)
                      src trg src_lengths 10) = length src) as Hseq.
  { intros src trg src_lengths _. unfold Sample.seq2seq. apply length_fmap. }
  do 2 (split; [reflexivity|]). split; [exact Hseq|].
  apply (validation_step_returns Sample.tokenizer Sample.tokenizer
           Sample.tokenizer Sample.labels Sample.seq2seq 10 batch);
    [reflexivity | reflexivity | exact Hseq].
Defined.

(** Two batches that both have example id 7. *)
Lemma infer_merges_steps_witness :
  let batches := [[Sample.boundary]; [Sample.five 7; Sample.dogs 8]] in
  let outputs : list (gmap Z (list string)) :=
    [ {[ 7 := ["the"; "five"; "dogs"]%string ]};
      {[ 7 := ["five"%string] ]} ∪ {[ 8 := ["dogs"%string] ]} ] in
  10 = 10
  ∧ Forall2
      (λ b o, validation_step Sample.tokenizer Sample.tokenizer
                Sample.tokenizer Sample.labels Sample.seq2seq 10 b = Ok o)
      batches outputs
  ∧ infer Sample.tokenizer Sample.tokenizer Sample.tokenizer Sample.labels
      Sample.seq2seq 10 batches
    = Ok (validation_epoch_end outputs)
  ∧ ∀ b post e,
      validation_step Sample.tokenizer Sample.tokenizer Sample.tokenizer
        Sample.labels Sample.seq2seq 10 b = Err e →
      infer Sample.tokenizer Sample.tokenizer Sample.tokenizer Sample.labels
        Sample.seq2seq 10 (batches ++ b :: post) = Err e.
Proof.
  intros batches outputs.
  assert (Forall2
            (λ b o, validation_step Sample.tokenizer Sample.tokenizer
                      Sample.tokenizer Sample.labels Sample.seq2seq 10 b
                    = Ok o)
            batches outputs) as Hsteps.
  { repeat constructor. }
  split; [reflexivity|]. split; [exact Hsteps|].
  apply (infer_merges_steps Sample.tokenizer Sample.tokenizer
           Sample.tokenizer Sample.labels Sample.seq2seq 10 10 batches
           outputs eq_refl).
  exact Hsteps.
Defined.

(** Two rows [BOS dogs EOS ...] that differ after the end marker, in the
    label of the end marker and in the valid length. *)
Lemma assemble_output_ignores_padding_witness :
  let r := Sample.dogs 7 in
  let r' := {| example_id := 7; context_ids := [101; 3; 102; 2; 2];
               tag_preds := [0; 0; 3; 2; 3]; len_context := 9 |} in
  let sp := Some [[4]] in
  bos_id Sample.tokenizer ≠ eos_id Sample.tokenizer
  ∧ example_id r = example_id r'
  ∧ context_ids r !! 2%nat = Some (eos_id Sample.tokenizer)
  ∧ take 3 (context_ids r) = take 3 (context_ids r')
  ∧ take 2 (tag_preds r) = take 2 (tag_preds r')
  ∧ (2 < length (tag_preds r))%nat
  ∧ (2 < length (tag_preds r'))%nat
  ∧ assemble_output Sample.tokenizer Sample.tokenizer Sample.labels sp
      ([Sample.blank 9] ++ r :: [Sample.five 8])
    = assemble_output Sample.tokenizer Sample.tokenizer Sample.labels sp
        ([Sample.blank 9] ++ r' :: [Sample.five 8]).
Proof.
  intros r r' sp. split; [discriminate|].
  do 4 (split; [reflexivity|]). do 2 (split; [simpl; lia|]).
  apply (assemble_output_ignores_padding Sample.tokenizer Sample.tokenizer
           Sample.labels sp [Sample.blank 9] r r' [Sample.five 8] 2%nat);
    first [reflexivity | discriminate | simpl; lia].
Defined.

(** A row of valid length 3 whose end marker stands at index 4: the
    walk of [assemble_output] meets two spans to rewrite, [inference]
    registers one. *)
Lemma validation_step_outcome_witness :
  let r := {| example_id := 7; context_ids := [101; 2; 1; 2; 102];
              tag_preds := [0; 2; 0; 2; 0]; len_context := 3 |} in
  let t := [ {| span_of := r; span_row := 0; span_cat := B;
                span_start := 1; span_end := 2 |};
             {| span_of := r; span_row := 0; span_cat := O;
                span_start := 2; span_end := 3 |};
             {| span_of := r; span_row := 0; span_cat := B;
                span_start := 3; span_end := 4 |} ] in
  assemble_spans Sample.tokenizer Sample.labels [r] = Ok t
  ∧ (∀ src trg src_lengths,
       length src = length (inference_spans Sample.labels [r]) →
       length (Sample.seq2seq [r] (inference_spans Sample.labels [r])
                 src trg src_lengths 10) = length src)
  ∧ (length (inference_spans Sample.labels [r])
     < length (rewrite_spans t))%nat
  ∧ validation_step Sample.tokenizer Sample.tokenizer Sample.tokenizer
      Sample.labels Sample.seq2seq 10 [r]
    = Err IndexError.
Proof.
  intros r t.
  assert (∀ src trg src_lengths,
            length src = length (inference_spans Sample.labels [r]) →
            length (Sample.seq2seq [r] (inference_spans Sample.labels [r])
                      src trg src_lengths 10) = length src) as Hseq.
  { intros src trg src_lengths _. unfold Sample.seq2seq. apply length_fmap. }
  split; [reflexivity|]. split; [exact Hseq|].
  split; [vm_compute; lia|].
  apply (proj2 (validation_step_outcome Sample.tokenizer Sample.tokenizer
                  Sample.tokenizer Sample.labels Sample.seq2seq 10 [r] t
                  eq_refl Hseq)).
  vm_compute. lia.
Defined.
